(** * fastkg: the Parquet triple codec of [KnowledgeGraph]

    A shallow embedding of [KnowledgeGraph.save_parquet] and
    [KnowledgeGraph.load_parquet] (nbs/00_core.ipynb), with the Python
    string primitives, the batching loop and the mutated graph object
    written out, followed by the properties of the encode/decode
    round trip. *)

From Stdlib Require Import ZArith Ascii String Lia.
From stdpp Require Import base option list gmap sets strings.

Local Open Scope Z_scope.

(** ** Python [str] primitives

    A Python [str] is modelled as a [string]; only the operations that
    [load_parquet] uses are embedded. *)
Module PyStr.

(** The double quote and the single quote, the two characters of the
    strip set of [load_parquet]. *)
Definition dquote : ascii := Eval cbv in ascii_of_nat 34.
Definition squote : ascii := Eval cbv in ascii_of_nat 39.

(** [s.startswith(p)] *)
Fixpoint startswith (s p : string) {struct p} : bool :=
  match p with
  | EmptyString => true
  | String c p' =>
      match s with
      | EmptyString => false
      | String d s' => if Ascii.eqb d c then startswith s' p' else false
      end
  end.

(** [s.endswith(p)]: [p] is no longer than [s] and the last [len(p)]
    characters of [s] are [p]. *)
Definition endswith (s p : string) : bool :=
  (String.length p <=? String.length s)%nat
  && String.eqb
       (String.substring (String.length s - String.length p)
                         (String.length p) s) p.

(** A slice bound as Python clamps it: a negative bound counts from
    the end, and both are cut to [0 .. len]. *)
Definition clamp (len i : Z) : Z :=
  if i <? 0 then Z.max 0 (len + i) else Z.min i len.

(** [s[lo:hi]]; [hi = None] is an omitted upper bound. *)
Definition slice (s : string) (lo : Z) (hi : option Z) : string :=
  let len := Z.of_nat (String.length s) in
  let a := clamp len lo in
  let b := match hi with Some h => clamp len h | None => len end in
  String.substring (Z.to_nat a) (Z.to_nat (b - a)) s.

(** [c in chars] *)
Fixpoint char_in (c : ascii) (chars : string) : bool :=
  match chars with
  | EmptyString => false
  | String d chars' => Ascii.eqb c d || char_in c chars'
  end.

(** [s.lstrip(chars)] *)
Fixpoint lstrip (s chars : string) : string :=
  match s with
  | EmptyString => EmptyString
  | String c s' => if char_in c chars then lstrip s' chars else s
  end.

(** [s.rstrip(chars)] *)
Fixpoint rstrip (s chars : string) : string :=
  match s with
  | EmptyString => EmptyString
  | String c s' =>
      match rstrip s' chars with
      | EmptyString =>
          if char_in c chars then EmptyString else String c EmptyString
      | String d r => String c (String d r)
      end
  end.

(** [s.strip(chars)]: the leading run, then the trailing run. *)
Definition strip (s chars : string) : string :=
  rstrip (lstrip s chars) chars.

(** The argument of the [strip] call: the double and the single
    quote character. *)
Definition quotes : string := String dquote (String squote EmptyString).

End PyStr.
Import PyStr.

(** ** The term model (rdflib)

    [rdflib.URIRef], [rdflib.BNode] and [rdflib.Literal] as the codec
    sees them.  A literal carries its lexical value, an optional
    datatype IRI and an optional language tag, in the order the
    specification writes them. *)
Inductive Term : Type :=
  | URIRef (v : string)
  | BNode (id : string)
  | Literal (lex : string) (datatype : option string) (language : option string).

(** A triple is the Python 3-tuple [(s, p, o)]. *)
Definition Triple : Type := Term * Term * Term.

(** A row of the data frame: the three text columns of [_COL_NAMES]. *)
Record Row : Type := mkRow {
  subject : string;
  predicate : string;
  object : string
}.

(** Modelled from the spec: [Term.n3] of rdflib, which is not part of
    this repository.  An IRI is written between angle brackets, a blank
    node after the prefix [_:], and a literal as its double-quoted
    lexical form followed by [^^<datatype>] when a datatype is present,
    or by [@language] when a language tag is present. *)
Definition n3 (t : Term) : string :=
  match t with
  | URIRef v => "<" +:+ v +:+ ">"
  | BNode id => "_:" +:+ id
  | Literal lex dt lang =>
      let quoted := String dquote (lex +:+ String dquote EmptyString) in
      match dt, lang with
      | Some d, _ => quoted +:+ "^^<" +:+ d +:+ ">"
      | None, Some l => quoted +:+ "@" +:+ l
      | None, None => quoted
      end
  end.

(** The row built for one triple in [save_parquet]:
    [{_COL_NAMES[i]: o.n3() for i, o in enumerate(triple)}]. *)
Definition Encode (t : Triple) : Row :=
  let '(s, p, o) := t in
  {| subject := n3 s; predicate := n3 p; object := n3 o |}.

(** ** The per-field parses of [load_parquet] *)

(** [# Parse subject (URI or blank node)] *)
Definition parse_subject (s_str : string) : Term :=
  if startswith s_str "<" && endswith s_str ">" then
    URIRef (slice s_str 1 (Some (-1)))
  else if startswith s_str "_:" then
    BNode (slice s_str 2 None)
  else
    Literal s_str None None.

(** [# Parse predicate (always URI)] *)
Definition parse_predicate (p_str : string) : Term :=
  if startswith p_str "<" && endswith p_str ">" then
    URIRef (slice p_str 1 (Some (-1)))
  else
    URIRef p_str.

(** [# Parse object (URI, blank node, or literal)] *)
Definition parse_object (o_str : string) : Term :=
  if startswith o_str "<" && endswith o_str ">" then
    URIRef (slice o_str 1 (Some (-1)))
  else if startswith o_str "_:" then
    BNode (slice o_str 2 None)
  else if startswith o_str (String dquote EmptyString)
          || startswith o_str (String squote EmptyString) then
    Literal (strip o_str quotes) None None
  else
    Literal o_str None None.

(** The body of the [iterrows] loop: one row to one triple. *)
Definition decode_row (row : Row) : Triple :=
  (parse_subject (subject row),
   parse_predicate (predicate row),
   parse_object (object row)).

(** ** Exceptions

    The Python exceptions the two methods can run into, and the result
    of a call that may raise. *)
Inductive exn : Type :=
  | ValueError          (* range() arg 3 must not be zero *)
  | FileNotFoundError   (* pd.read_parquet on a path that holds no file *)
  | AttributeError.     (* an attribute looked up on a missing object *)

Inductive result (A : Type) : Type :=
  | Ok (a : A)
  | Raise (e : exn).
Arguments Ok {A} a.
Arguments Raise {A} e.

Global Instance result_ret : MRet result := λ A a, Ok a.
Global Instance result_bind : MBind result := λ A B f m,
  match m with
  | Ok a => f a
  | Raise e => Raise e
  end.

(** A [for] loop whose body may raise: the state is threaded from left
    to right and the first exception ends the loop. *)
Fixpoint for_each {S B : Type} (body : S → B → result S) (st : S) (l : list B)
  : result S :=
  match l with
  | [] => Ok st
  | x :: l' => st' ← body st x; for_each body st' l'
  end.

(** ** The batching loop *)

(** [len(range(lo, hi, step))] for a non-zero [step]. *)
Definition range_len (lo hi step : Z) : Z :=
  if 0 <? step then
    if lo <? hi then (hi - lo - 1) / step + 1 else 0
  else
    if hi <? lo then (lo - hi - 1) / (- step) + 1 else 0.

(** [range(lo, hi, step)], which raises [ValueError] on a zero step. *)
Definition py_range (lo hi step : Z) : result (list Z) :=
  if step =? 0 then Raise ValueError
  else Ok ((λ i : nat, lo + Z.of_nat i * step)
             <$> seq 0 (Z.to_nat (range_len lo hi step))).

(** [df.iloc[lo:hi]]: a positional slice of the rows, with the bounds
    clamped as for any Python slice. *)
Definition iloc (df : list Row) (lo hi : Z) : list Row :=
  let len := Z.of_nat (length df) in
  let a := clamp len lo in
  let b := clamp len hi in
  take (Z.to_nat (b - a)) (drop (Z.to_nat a) df).

(** The list [triples] built by the [iterrows] loop of one batch:
    it starts empty and every row appends its decoded triple. *)
Definition batch_triples (batch : list Row) : list Triple :=
  foldl (λ triples row, triples ++ [decode_row row]) [] batch.

(** The batch of the loop iteration that begins at row [start]:
    [end = min(start + batch_size, total)], [batch = df.iloc[start:end]]. *)
Definition batch_at (df : list Row) (batch_size start : Z) : list Row :=
  let total := Z.of_nat (length df) in
  let end_ := Z.min (start + batch_size) total in
  iloc df start end_.

(** DecodeBatch: the triples that the decode loop of [load_parquet]
    produces, batch after batch, in the order in which they are handed
    to the graph. *)
Definition DecodeBatch (df : list Row) (batch_size : Z) : result (list Triple) :=
  let total := Z.of_nat (length df) in
  starts ← py_range 0 total batch_size;
  mret (concat ((λ start, batch_triples (batch_at df batch_size start)) <$> starts)).

(** ** Objects and files

    [rdflib.Graph] is a set of triples.  A [KnowledgeGraph] object has
    one attribute, [g], that refers to a graph object; objects are
    named by references, so that two names of one object are told from
    two objects that look alike.  The Parquet files are the data frames
    written under their paths. *)
Global Instance Term_eq_dec : EqDecision Term.
Proof. solve_decision. Defined.

Global Instance Term_countable : Countable Term.
Proof.
  refine (inj_countable'
    (λ t, match t with
          | URIRef v => inl v
          | BNode i => inr (inl i)
          | Literal l d g => inr (inr (l, d, g))
          end)
    (λ x, match x with
          | inl v => URIRef v
          | inr (inl i) => BNode i
          | inr (inr (l, d, g)) => Literal l d g
          end) _).
  by intros [].
Defined.

Global Instance Triple_eq_dec : EqDecision Triple.
Proof. unfold Triple. apply _. Defined.

Global Instance Triple_countable : Countable Triple.
Proof. unfold Triple. apply _. Defined.

Global Instance Row_eq_dec : EqDecision Row.
Proof. solve_decision. Defined.

Record World : Type := mkWorld {
  files : gmap string (list Row);
  attr_g : gmap positive positive;
  graphs : gmap positive (gset Triple)
}.

(** [self.g.add(t)]: the graph object that [self.g] refers to gains
    [t]; nothing else in the world changes. *)
Definition graph_add (self : positive) (w : World) (t : Triple) : result World :=
  match attr_g w !! self with
  | None => Raise AttributeError
  | Some gr =>
      match graphs w !! gr with
      | None => Raise AttributeError
      | Some G =>
          Ok {| files := files w;
                attr_g := attr_g w;
                graphs := <[gr := {[t]} ∪ G]> (graphs w) |}
      end
  end.

(** [for triple in self.g]: the triples of the graph in the order in
    which the store yields them. *)
Definition graph_iter (self : positive) (w : World) : result (list Triple) :=
  match attr_g w !! self with
  | None => Raise AttributeError
  | Some gr =>
      match graphs w !! gr with
      | None => Raise AttributeError
      | Some G => Ok (elements G)
      end
  end.

(** [KnowledgeGraph.save_parquet]: one row per triple of the graph,
    written as the data frame of [path]. *)
Definition save_parquet (self : positive) (path : string) (w : World)
  : result World :=
  triples ← graph_iter self w;
  let rows := fmap (M:=list) Encode triples in
  mret {| files := <[path := rows]> (files w);
          attr_g := attr_g w;
          graphs := graphs w |}.

(** [pd.read_parquet(path)] *)
Definition read_parquet (path : string) (w : World) : result (list Row) :=
  match files w !! path with
  | Some df => Ok df
  | None => Raise FileNotFoundError
  end.

(** One iteration of the batch loop: the batch is decoded into
    [triples], then every triple is added to the graph. *)
Definition load_batch (self : positive) (df : list Row) (batch_size : Z)
    (w : World) (start : Z) : result World :=
  let triples := batch_triples (batch_at df batch_size start) in
  for_each (graph_add self) w triples.

(** [KnowledgeGraph.load_parquet]; the second component of the result
    is the object that the call returns. *)
Definition load_parquet (self : positive) (path : string) (batch_size : Z)
    (w : World) : result (World * positive) :=
  df ← read_parquet path w;
  let total := Z.of_nat (length df) in
  starts ← py_range 0 total batch_size;
  w' ← for_each (load_batch self df batch_size) w starts;
  mret (w', self).

(** The default of the [batch_size] argument. *)
Definition default_batch_size : Z := 100000.

(** The graph that a [KnowledgeGraph] object holds, when both objects
    exist. *)
Definition graph_of (self : positive) (w : World) : option (gset Triple) :=
  gr ← attr_g w !! self; graphs w !! gr.

(** ** Vocabulary of the statements

    What it means for a run of characters to be stripped, and the
    triples of the quick-start example. *)

(** Every character of [s] is one of [chars]. *)
Fixpoint all_in (s chars : string) : bool :=
  match s with
  | EmptyString => true
  | String c s' => char_in c chars && all_in s' chars
  end.

Definition first_char (s : string) : option ascii :=
  match s with
  | EmptyString => None
  | String c _ => Some c
  end.

Fixpoint last_char (s : string) : option ascii :=
  match s with
  | EmptyString => None
  | String c s' =>
      match s' with
      | EmptyString => Some c
      | String _ _ => last_char s'
      end
  end.

(** The character, if there is one, is none of [chars]. *)
Definition outside (o : option ascii) (chars : string) : bool :=
  match o with
  | None => true
  | Some c => negb (char_in c chars)
  end.

Definition ex_John : Term := URIRef "http://example.org/John".
Definition ex_Person : Term := URIRef "http://example.org/Person".
Definition ex_name : Term := URIRef "http://example.org/name".
Definition ex_knows : Term := URIRef "http://example.org/knows".
Definition ex_Jane : Term := URIRef "http://example.org/Jane".
Definition rdf_type : Term :=
  URIRef "http://www.w3.org/1999/02/22-rdf-syntax-ns#type".

Definition john_triples : list Triple :=
  [ (ex_John, rdf_type, ex_Person);
    (ex_John, ex_name, Literal "John Doe" None None);
    (ex_John, ex_knows, ex_Jane) ].

(** A world for the quick-start example: the object [1] holds the
    three triples, the object [2] is a new, empty [KnowledgeGraph], and
    no file has been written yet. *)
Definition quickstart_world : World :=
  {| files := ∅;
     attr_g := {[ 1%positive := 1%positive; 2%positive := 2%positive ]};
     graphs := {[ 1%positive := list_to_set john_triples; 2%positive := ∅ ]} |}.

(** ** The other methods of [KnowledgeGraph]

    [rdflib.Graph] is used through four operations: [add] puts one
    triple into the set, [remove] deletes every triple that matches a
    pattern, [triples] yields the triples that match a pattern, and
    [len] is the number of triples.  A pattern is a triple in which
    [None] stands for any term. *)
Definition Pattern : Type := option Term * option Term * option Term.

Definition term_matches (q : option Term) (t : Term) : bool :=
  match q with
  | None => true
  | Some u => bool_decide (u = t)
  end.

Definition matches (pattern : Pattern) (t : Triple) : bool :=
  let '(qs, qp, qo) := pattern in
  let '(s, p, o) := t in
  term_matches qs s && term_matches qp p && term_matches qo o.

(** The graph object behind [self.g]. *)
Definition get_graph (self : positive) (w : World) : result (positive * gset Triple) :=
  match attr_g w !! self with
  | None => Raise AttributeError
  | Some gr =>
      match graphs w !! gr with
      | None => Raise AttributeError
      | Some G => Ok (gr, G)
      end
  end.

(** [KnowledgeGraph.__init__]: [self.g = ifnone(g, rdflib.Graph())].
    The argument [rdflib.Graph()] is evaluated before [ifnone] is
    called, so a new graph object is made in either case. *)
Definition __init__ (g : option positive) (w : World) : World * positive :=
  let new_graph := fresh (dom (graphs w)) in
  let self := fresh (dom (attr_g w)) in
  ({| files := files w;
      attr_g := <[self := default new_graph g]> (attr_g w);
      graphs := <[new_graph := ∅]> (graphs w) |},
   self).

(** [KnowledgeGraph.__len__]: [len(self.g)] *)
Definition __len__ (self : positive) (w : World) : result nat :=
  '(_, G) ← get_graph self w; mret (size G).

(** [KnowledgeGraph.add]: [self.g.add(triple)], then [return self]. *)
Definition add (self : positive) (triple : Triple) (w : World)
  : result (World * positive) :=
  w' ← graph_add self w triple; mret (w', self).

(** [KnowledgeGraph.remove]: [self.g.remove(triple)], then
    [return self]. *)
Definition remove (self : positive) (triple : Pattern) (w : World)
  : result (World * positive) :=
  '(gr, G) ← get_graph self w;
  mret ({| files := files w;
           attr_g := attr_g w;
           graphs := <[gr := filter (λ t, ¬ matches triple t) G]> (graphs w) |},
        self).

(** [list(self.g.triples(pattern))] *)
Definition graph_triples (self : positive) (pattern : Pattern) (w : World)
  : result (list Triple) :=
  '(_, G) ← get_graph self w;
  mret (elements (filter (λ t, matches pattern t) G)).

(** [KnowledgeGraph.triples]: a missing pattern is
    [(None, None, None)]. *)
Definition triples (self : positive) (pattern : option Pattern) (w : World)
  : result (list Triple) :=
  let pattern := default (None, None, None) pattern in
  graph_triples self pattern w.

(** [KnowledgeGraph.__getitem__] *)
Definition __getitem__ (self : positive) (pattern : Pattern) (w : World)
  : result (list Triple) :=
  graph_triples self pattern w.




(** ** Facts about the string primitives *)
Section PyStrFacts.

Lemma app_nil_l (t : string) : EmptyString +:+ t = t.
Proof. reflexivity. Qed.

Lemma app_cons (c : ascii) (s t : string) :
  String c s +:+ t = String c (s +:+ t).
Proof. reflexivity. Qed.

Lemma length_app (s t : string) :
  String.length (s +:+ t) = (String.length s + String.length t)%nat.
Proof. induction s as [|c s IH]; simpl; [done | by rewrite IH]. Qed.

Lemma substring_all (s : string) :
  String.substring 0 (String.length s) s = s.
Proof. induction s as [|c s IH]; simpl; [done | by rewrite IH]. Qed.

Lemma substring_app_l (s t : string) :
  String.substring 0 (String.length s) (s +:+ t) = s.
Proof.
  induction s as [|c s IH]; simpl; [by destruct t | by rewrite IH].
Qed.

Lemma substring_app_r (s t : string) (m : nat) :
  String.substring (String.length s) m (s +:+ t) = String.substring 0 m t.
Proof. induction s as [|c s IH]; simpl; [reflexivity | exact IH]. Qed.

Lemma startswith_app (p s : string) : startswith (p +:+ s) p = true.
Proof.
  induction p as [|c p IH]; simpl; [done |].
  by rewrite Ascii.eqb_refl.
Qed.

Lemma startswith_inv (s p : string) :
  startswith s p = true → ∃ r, s = p +:+ r.
Proof.
  revert s. induction p as [|c p IH]; intros s H; simpl in *.
  - by exists s.
  - destruct s as [|d s]; [done |].
    destruct (Ascii.eqb_spec d c) as [->|]; [| done].
    destruct (IH _ H) as [r ->]. by exists r.
Qed.

Lemma endswith_app (s p : string) : endswith (s +:+ p) p = true.
Proof.
  unfold endswith. rewrite length_app.
  replace (String.length s + String.length p - String.length p)%nat
    with (String.length s) by lia.
  rewrite substring_app_r, substring_all, String.eqb_refl.
  rewrite andb_true_r. apply Nat.leb_le. lia.
Qed.

(** On a one-character suffix [endswith] looks at the last character
    only. *)
Lemma endswith_cons1 (d c : ascii) (s : string) :
  endswith (String d s) (String c EmptyString)
  = match s with
    | EmptyString => Ascii.eqb d c
    | String _ _ => endswith s (String c EmptyString)
    end.
Proof.
  destruct s as [|e s]; unfold endswith; simpl.
  - by destruct (Ascii.eqb d c).
  - by rewrite Nat.sub_0_r.
Qed.

Lemma endswith1_inv (c : ascii) (s : string) :
  endswith s (String c EmptyString) = true →
  ∃ r, s = r +:+ String c EmptyString.
Proof.
  induction s as [|d s IH]; [done |].
  rewrite endswith_cons1. destruct s as [|e s].
  - intros ->%Ascii.eqb_eq. by exists EmptyString.
  - intros [r Hr]%IH. exists (String d r). simpl. by rewrite Hr.
Qed.

(** A text that starts with [<] and ends with [>] is [<v>] for the
    enclosed text [v], and [s[1:-1]] is that [v]. *)
Lemma angle_inv (s : string) :
  startswith s "<" = true → endswith s ">" = true →
  ∃ v, s = "<" +:+ v +:+ ">".
Proof.
  intros [r ->]%startswith_inv Hend.
  rewrite app_cons, app_nil_l, endswith_cons1 in Hend. destruct r as [|e r]; [done |].
  apply endswith1_inv in Hend as [v ->]. by exists v.
Qed.

Lemma slice_angle (v : string) :
  slice ("<" +:+ v +:+ ">") 1 (Some (-1)) = v.
Proof.
  unfold slice. rewrite !app_cons, !app_nil_l.
  set (len := Z.of_nat _).
  assert (Hlen : len = Z.of_nat (String.length v) + 2).
  { subst len. simpl String.length. rewrite length_app. simpl. lia. }
  assert (Ha : clamp len 1 = 1) by (unfold clamp; simpl; lia).
  assert (Hb : clamp len (-1) = len - 1) by (unfold clamp; simpl; lia).
  rewrite Ha, Hb.
  replace (Z.to_nat (len - 1 - 1)) with (String.length v) by lia.
  change (Z.to_nat 1) with 1%nat. simpl. apply substring_app_l.
Qed.

Lemma slice_blank (id : string) : slice ("_:" +:+ id) 2 None = id.
Proof.
  unfold slice. rewrite !app_cons, !app_nil_l.
  set (len := Z.of_nat _).
  assert (Hlen : len = Z.of_nat (String.length id) + 2).
  { subst len. simpl String.length. lia. }
  assert (Ha : clamp len 2 = 2) by (unfold clamp; simpl; lia).
  rewrite Ha.
  replace (Z.to_nat (len - 2)) with (String.length id) by lia.
  change (Z.to_nat 2) with 2%nat. simpl. apply substring_all.
Qed.

End PyStrFacts.

(** ** The per-field parses on the encoded shapes *)
Section ParseFacts.

Lemma angle_shape (v : string) :
  startswith ("<" +:+ v +:+ ">") "<" && endswith ("<" +:+ v +:+ ">") ">" = true.
Proof.
  rewrite startswith_app. rewrite app_cons, app_nil_l, <- app_cons.
  by rewrite endswith_app.
Qed.

Lemma parse_subject_angle (v : string) :
  parse_subject ("<" +:+ v +:+ ">") = URIRef v.
Proof. unfold parse_subject. by rewrite angle_shape, slice_angle. Qed.

Lemma parse_predicate_angle (v : string) :
  parse_predicate ("<" +:+ v +:+ ">") = URIRef v.
Proof. unfold parse_predicate. by rewrite angle_shape, slice_angle. Qed.

Lemma parse_object_angle (v : string) :
  parse_object ("<" +:+ v +:+ ">") = URIRef v.
Proof. unfold parse_object. by rewrite angle_shape, slice_angle. Qed.

(** A text with the prefix [_:] does not start with [<]. *)
Lemma blank_not_angle (r : string) : startswith ("_:" +:+ r) "<" = false.
Proof. reflexivity. Qed.

Lemma parse_subject_blank (r : string) :
  parse_subject ("_:" +:+ r) = BNode r.
Proof.
  unfold parse_subject.
  by rewrite blank_not_angle, startswith_app, slice_blank.
Qed.

Lemma parse_object_blank (r : string) :
  parse_object ("_:" +:+ r) = BNode r.
Proof.
  unfold parse_object.
  by rewrite blank_not_angle, startswith_app, slice_blank.
Qed.

Lemma parse_predicate_is_iri (p_str : string) :
  ∃ v, parse_predicate p_str = URIRef v.
Proof.
  unfold parse_predicate. destruct (_ && _); eauto.
Qed.

End ParseFacts.

(** C2. Round trip for IRIs: for a non-empty IRI text [v] without
    angle brackets, [n3] writes [URIRef v] as [<v>]; every field that
    starts with [<] and ends with [>] is [<e>] for its enclosed text
    [e = f[1:-1]] and parses to [URIRef e] in the subject, predicate
    and object position; hence decoding the encoded [URIRef v] gives
    [URIRef v] back in all three positions. *)
Theorem iri_roundtrip (v : string) :
  v ≠ EmptyString →
  char_in "<"%char v = false →
  char_in ">"%char v = false →
  n3 (URIRef v) = "<" +:+ v +:+ ">"
  ∧ (∀ f, startswith f "<" = true → endswith f ">" = true →
          ∃ e, f = "<" +:+ e +:+ ">" ∧ slice f 1 (Some (-1)) = e
               ∧ parse_subject f = URIRef e
               ∧ parse_predicate f = URIRef e
               ∧ parse_object f = URIRef e)
  ∧ parse_subject (n3 (URIRef v)) = URIRef v
  ∧ parse_predicate (n3 (URIRef v)) = URIRef v
  ∧ parse_object (n3 (URIRef v)) = URIRef v
  ∧ decode_row (Encode (URIRef v, URIRef v, URIRef v))
    = (URIRef v, URIRef v, URIRef v).
Proof.
  intros _ _ _. split_and!.
  - reflexivity.
  - intros f Hs He. destruct (angle_inv f Hs He) as [e ->]. exists e.
    split_and!; auto using slice_angle, parse_subject_angle,
      parse_predicate_angle, parse_object_angle.
  - apply parse_subject_angle.
  - apply parse_predicate_angle.
  - apply parse_object_angle.
  - unfold decode_row, Encode; simpl.
    by rewrite parse_subject_angle, parse_predicate_angle, parse_object_angle.
Qed.

Lemma iri_roundtrip_witness :
  parse_object (n3 (URIRef "http://example.org/John"))
  = URIRef "http://example.org/John".
Proof.
  apply (iri_roundtrip "http://example.org/John"); [done | reflexivity..].
Defined.

(** C3. Round trip for blank nodes: for an identifier [id] that does
    not itself begin with [_:], [n3] writes [BNode id] as [_:id]; every
    subject or object field that starts with [_:] parses to the blank
    node named by the text after that prefix, [f[2:]]; hence decoding
    the encoded [BNode id] gives [BNode id] back. *)
Theorem bnode_roundtrip (id : string) :
  startswith id "_:" = false →
  n3 (BNode id) = "_:" +:+ id
  ∧ (∀ f, startswith f "_:" = true →
          ∃ r, f = "_:" +:+ r ∧ slice f 2 None = r
               ∧ parse_subject f = BNode r
               ∧ parse_object f = BNode r)
  ∧ parse_subject (n3 (BNode id)) = BNode id
  ∧ parse_object (n3 (BNode id)) = BNode id.
Proof.
  intros _. split_and!.
  - reflexivity.
  - intros f [r ->]%startswith_inv. exists r.
    split_and!; auto using slice_blank, parse_subject_blank, parse_object_blank.
  - apply parse_subject_blank.
  - apply parse_object_blank.
Qed.

Lemma bnode_roundtrip_witness :
  parse_subject (n3 (BNode "node10")) = BNode "node10".
Proof. apply (bnode_roundtrip "node10"). reflexivity. Defined.

(** C6. The predicate position: a predicate text that does not both
    start with [<] and end with [>] is decoded to the IRI whose text is
    the raw field text, whatever it starts with; and no predicate text
    at all is decoded to a blank node or to a literal. *)
Theorem predicate_raw_iri (p_str : string) :
  startswith p_str "<" && endswith p_str ">" = false →
  parse_predicate p_str = URIRef p_str
  ∧ (∀ q, ∃ v, parse_predicate q = URIRef v)
  ∧ (∀ s o, (decode_row (mkRow s p_str o)).1.2 = URIRef p_str).
Proof.
  intros H. split_and!.
  - unfold parse_predicate. by rewrite H.
  - apply parse_predicate_is_iri.
  - intros s o. unfold decode_row. cbn [fst snd predicate].
    unfold parse_predicate. by rewrite H.
Qed.

Lemma predicate_raw_iri_witness :
  parse_predicate "_:b0" = URIRef "_:b0"
  ∧ parse_predicate (String dquote "name") = URIRef (String dquote "name").
Proof.
  split.
  - apply (predicate_raw_iri "_:b0"). reflexivity.
  - apply (predicate_raw_iri (String dquote "name")). reflexivity.
Defined.

(** C7. Precedence: a subject or object field that starts with [<] and
    ends with [>] is decoded by the first rule, to the IRI of the
    enclosed text [f[1:-1]]; the literal rules, which would have kept
    the text as a lexical value, are never reached for it. *)
Theorem iri_rule_shadows_literal (f : string) :
  startswith f "<" = true →
  endswith f ">" = true →
  ∃ e, f = "<" +:+ e +:+ ">"
       ∧ parse_subject f = URIRef (slice f 1 (Some (-1)))
       ∧ parse_object f = URIRef (slice f 1 (Some (-1)))
       ∧ slice f 1 (Some (-1)) = e
       ∧ (∀ lex dt lang, parse_subject f ≠ Literal lex dt lang)
       ∧ (∀ lex dt lang, parse_object f ≠ Literal lex dt lang).
Proof.
  intros Hs He. destruct (angle_inv f Hs He) as [e ->]. exists e.
  rewrite parse_subject_angle, parse_object_angle, slice_angle.
  by split_and!.
Qed.

Lemma iri_rule_shadows_literal_witness :
  ∃ e, "<b>" = "<" +:+ e +:+ ">"
       ∧ parse_subject "<b>" = URIRef (slice "<b>" 1 (Some (-1)))
       ∧ parse_object "<b>" = URIRef (slice "<b>" 1 (Some (-1)))
       ∧ slice "<b>" 1 (Some (-1)) = e
       ∧ (∀ lex dt lang, parse_subject "<b>" ≠ Literal lex dt lang)
       ∧ (∀ lex dt lang, parse_object "<b>" ≠ Literal lex dt lang).
Proof. apply (iri_rule_shadows_literal "<b>"); reflexivity. Defined.

(** ** The batching loop decodes every row once, in order *)
Section Batching.

Lemma clamp_nonneg (len i : Z) : 0 ≤ i → clamp len i = i `min` len.
Proof. intros Hi. unfold clamp. by destruct (Z.ltb_spec i 0); [lia |]. Qed.

Lemma batch_triples_fmap (batch : list Row) :
  batch_triples batch = decode_row <$> batch.
Proof.
  unfold batch_triples.
  enough (∀ acc, foldl (λ triples row, triples ++ [decode_row row]) acc batch
                 = acc ++ (decode_row <$> batch)) as H by apply H.
  induction batch as [|row batch IH]; intros acc; simpl.
  - by rewrite app_nil_r.
  - by rewrite IH, <- app_assoc.
Qed.

(** The batch that begins at row [i * k] continues the rows taken so
    far. *)
Lemma take_batch_at (df : list Row) (k : Z) (i : nat) :
  0 < k →
  take (Z.to_nat (Z.of_nat i * k)) df ++ batch_at df k (0 + Z.of_nat i * k)
  = take (Z.to_nat (Z.of_nat (S i) * k)) df.
Proof.
  intros Hk. unfold batch_at, iloc.
  set (total := Z.of_nat (length df)).
  set (start := 0 + Z.of_nat i * k).
  assert (0 ≤ start) by (subst start; nia).
  replace (Z.of_nat i * k) with start by (subst start; lia).
  replace (Z.of_nat (S i) * k) with (start + k) by (subst start; lia).
  destruct (Z.le_gt_cases start total) as [Hle|Hgt].
  - assert (clamp total start = start) as -> by (rewrite clamp_nonneg; lia).
    assert (clamp total ((start + k) `min` total) = (start + k) `min` total)
      as -> by (rewrite clamp_nonneg; lia).
    rewrite take_take_drop.
    destruct (Z.le_gt_cases (start + k) total).
    + f_equal. lia.
    + rewrite !take_ge; [done | subst total; lia..].
  - assert (clamp total start = total) as -> by (rewrite clamp_nonneg; lia).
    assert (clamp total ((start + k) `min` total) = total)
      as -> by (rewrite clamp_nonneg; lia).
    rewrite Z.sub_diag. simpl. rewrite app_nil_r.
    rewrite !take_ge; [done | subst total; lia..].
Qed.

Lemma batches_take (df : list Row) (k : Z) (n : nat) :
  0 < k →
  concat (batch_at df k <$> ((λ i : nat, 0 + Z.of_nat i * k) <$> seq 0 n))
  = take (Z.to_nat (Z.of_nat n * k)) df.
Proof.
  intros Hk. induction n as [|n IH].
  - done.
  - rewrite seq_S, !fmap_app, concat_app, IH. simpl.
    rewrite app_nil_r. by apply take_batch_at.
Qed.

(** [range(0, total, k)] reaches the end of the rows. *)
Lemma range_covers (total k : Z) :
  0 ≤ total → 0 < k →
  total ≤ Z.of_nat (Z.to_nat (range_len 0 total k)) * k.
Proof.
  intros Ht Hk. unfold range_len.
  destruct (Z.ltb_spec 0 k); [| lia].
  destruct (Z.ltb_spec 0 total); [| lia].
  pose proof (Z.div_pos (total - 0 - 1) k ltac:(lia) Hk).
  pose proof (Z.mul_succ_div_gt (total - 0 - 1) k Hk).
  rewrite Z2Nat.id by lia. lia.
Qed.

Lemma concat_fmap_fmap {A B C : Type} (f : B → C) (h : A → list B) (l : list A) :
  concat ((λ a, f <$> h a) <$> l) = f <$> concat (h <$> l).
Proof.
  induction l as [|a l IH]; csimpl; [done |].
  by rewrite IH, fmap_app.
Qed.

(** For a positive batch size the decode loop yields the decoded
    rows, one triple per row and in the order of the rows. *)
Lemma DecodeBatch_fmap (df : list Row) (k : Z) :
  1 ≤ k → DecodeBatch df k = Ok (decode_row <$> df).
Proof.
  intros Hk. unfold DecodeBatch, py_range.
  destruct (Z.eqb_spec k 0); [lia |]. simpl. unfold mret, result_ret. f_equal.
  rewrite (list_fmap_ext _ (λ start, decode_row <$> batch_at df k start) _)
    by (intros; apply batch_triples_fmap).
  rewrite concat_fmap_fmap, batches_take by lia. f_equal.
  apply take_ge. pose proof (range_covers (Z.of_nat (length df)) k). lia.
Qed.

(** A negative batch size gives an empty range: nothing is decoded. *)
Lemma DecodeBatch_negative (df : list Row) (k : Z) :
  k < 0 → DecodeBatch df k = Ok [].
Proof.
  intros Hk. unfold DecodeBatch, py_range, range_len.
  destruct (Z.eqb_spec k 0); [lia |].
  destruct (Z.ltb_spec 0 k); [lia |].
  destruct (Z.ltb_spec (Z.of_nat (length df)) 0); [lia |]. done.
Qed.

Lemma DecodeBatch_returns (df : list Row) (k : Z) :
  k ≠ 0 → ∃ ts, DecodeBatch df k = Ok ts.
Proof.
  intros Hk. destruct (Z.lt_ge_cases k 0).
  - exists []. by apply DecodeBatch_negative.
  - exists (decode_row <$> df). apply DecodeBatch_fmap. lia.
Qed.

End Batching.

(** C1. Order preservation and batch-size invariance: for every
    sequence of rows and every batch size [k >= 1], also one larger
    than the number of rows, the decode loop returns the sequence of
    the decoded rows: it has the length of the input, its [i]-th triple
    is the decoding of the [i]-th row, and it is the same sequence for
    every other batch size [k' >= 1]. *)
Theorem DecodeBatch_order_invariant (df : list Row) (k : Z) :
  1 ≤ k →
  DecodeBatch df k = Ok (decode_row <$> df)
  ∧ (∃ ts, DecodeBatch df k = Ok ts
           ∧ length ts = length df
           ∧ ∀ (i : nat) row, df !! i = Some row → ts !! i = Some (decode_row row))
  ∧ (∀ k', 1 ≤ k' → DecodeBatch df k' = DecodeBatch df k)
  ∧ DecodeBatch df (Z.of_nat (length df) + k) = DecodeBatch df k.
Proof.
  intros Hk. pose proof (DecodeBatch_fmap df k Hk) as Hdec. split_and!.
  - done.
  - exists (decode_row <$> df). split_and!; [done | by rewrite length_fmap |].
    intros i row Hi. by rewrite list_lookup_fmap, Hi.
  - intros k' Hk'. by rewrite Hdec, DecodeBatch_fmap.
  - rewrite Hdec. apply DecodeBatch_fmap. lia.
Qed.

Lemma DecodeBatch_order_invariant_witness :
  DecodeBatch [mkRow "<a>" "<b>" "<c>"; mkRow "_:x" "<p>" "lit"; mkRow "<d>" "<e>" "<f>"] 7
  = DecodeBatch [mkRow "<a>" "<b>" "<c>"; mkRow "_:x" "<p>" "lit"; mkRow "<d>" "<e>" "<f>"] 2.
Proof.
  apply (DecodeBatch_order_invariant
           [mkRow "<a>" "<b>" "<c>"; mkRow "_:x" "<p>" "lit"; mkRow "<d>" "<e>" "<f>"] 2);
    lia.
Defined.

(** C5. Graceful degradation: an empty field is decoded, not
    rejected.  In the subject and in the object position it becomes the
    literal with the empty lexical value and neither datatype nor
    language (in the predicate position, the IRI of the empty text);
    and whatever the texts of the rows are, the decode loop
    with a batch size [k >= 1] returns normally, with one triple for
    every row. *)
Theorem empty_field_decodes (df : list Row) (k : Z) :
  1 ≤ k →
  parse_subject EmptyString = Literal EmptyString None None
  ∧ parse_object EmptyString = Literal EmptyString None None
  ∧ parse_predicate EmptyString = URIRef EmptyString
  ∧ (∀ p o, (decode_row (mkRow EmptyString p o)).1.1 = Literal EmptyString None None)
  ∧ (∀ s p, (decode_row (mkRow s p EmptyString)).2 = Literal EmptyString None None)
  ∧ (∃ ts, DecodeBatch df k = Ok ts ∧ length ts = length df).
Proof.
  intros Hk. split_and!; try reflexivity.
  exists (decode_row <$> df). split; [by apply DecodeBatch_fmap |].
  by rewrite length_fmap.
Qed.

Lemma empty_field_decodes_witness :
  ∃ ts, DecodeBatch [mkRow EmptyString EmptyString EmptyString] 1 = Ok ts
        ∧ length ts = 1%nat.
Proof.
  apply (empty_field_decodes [mkRow EmptyString EmptyString EmptyString] 1). lia.
Defined.

(** ** What [strip] removes *)
Section StripFacts.

Lemma lstrip_spec (s chars : string) :
  ∃ l, s = l +:+ lstrip s chars
       ∧ all_in l chars = true
       ∧ outside (first_char (lstrip s chars)) chars = true.
Proof.
  induction s as [|c s (l & Hs & Hl & Hout)]; simpl.
  - by exists EmptyString.
  - destruct (char_in c chars) eqn:Hc.
    + exists (String c l). rewrite app_cons, <- Hs. simpl. by rewrite Hc.
    + exists EmptyString. simpl. by rewrite Hc.
Qed.

Lemma rstrip_spec (s chars : string) :
  ∃ r, s = rstrip s chars +:+ r
       ∧ all_in r chars = true
       ∧ outside (last_char (rstrip s chars)) chars = true.
Proof.
  induction s as [|c s (r & Hs & Hr & Hout)]; simpl.
  - by exists EmptyString.
  - destruct (rstrip s chars) as [|d t] eqn:Hrs.
    + rewrite app_nil_l in Hs. subst r.
      destruct (char_in c chars) eqn:Hc.
      * exists (String c s). simpl. by rewrite Hc, Hr.
      * exists s. simpl. by rewrite Hc.
    + exists r. by rewrite !app_cons, <- app_cons, <- Hs.
Qed.

(** [rstrip] leaves a first character that is not to be stripped. *)
Lemma rstrip_first_char (s chars : string) :
  outside (first_char s) chars = true →
  first_char (rstrip s chars) = first_char s.
Proof.
  destruct s as [|c s]; simpl; [done |].
  intros Hc%negb_true_iff. rewrite Hc. by destruct (rstrip s chars).
Qed.

Lemma strip_spec (s chars : string) :
  ∃ l r, s = l +:+ strip s chars +:+ r
         ∧ all_in l chars = true
         ∧ all_in r chars = true
         ∧ outside (first_char (strip s chars)) chars = true
         ∧ outside (last_char (strip s chars)) chars = true.
Proof.
  destruct (lstrip_spec s chars) as (l & Hs & Hl & Hfirst).
  destruct (rstrip_spec (lstrip s chars) chars) as (r & Hls & Hr & Hlast).
  exists l, r. unfold strip. split_and!; try done.
  - by rewrite <- Hls.
  - by rewrite rstrip_first_char.
Qed.

(** A text that starts with a quote is neither of the [<...>] form
    nor of the [_:] form. *)
Lemma quote_first (f : string) :
  startswith f (String dquote EmptyString)
  || startswith f (String squote EmptyString) = true →
  startswith f "<" = false
  ∧ startswith f "_:" = false
  ∧ outside (first_char f) quotes = false.
Proof.
  intros [[r ->]%startswith_inv | [r ->]%startswith_inv]%orb_true_iff; done.
Qed.

End StripFacts.

(** C9. Quoted text in the subject and in the object position: a
    field text that starts with a double or a single quote is of
    neither the IRI nor the blank-node form.  In the object position it
    is decoded to the literal of [strip]: the text without its leading
    and its trailing run of quote characters.  In the subject position
    the same text is decoded to the literal of the raw text, quotes
    included; so the two positions never agree on such a text. *)
Theorem quoted_subject_keeps_quotes (f : string) :
  startswith f (String dquote EmptyString)
  || startswith f (String squote EmptyString) = true →
  parse_subject f = Literal f None None
  ∧ parse_object f = Literal (strip f quotes) None None
  ∧ (∃ l r, f = l +:+ strip f quotes +:+ r
            ∧ all_in l quotes = true
            ∧ all_in r quotes = true
            ∧ outside (first_char (strip f quotes)) quotes = true
            ∧ outside (last_char (strip f quotes)) quotes = true)
  ∧ parse_subject f ≠ parse_object f.
Proof.
  intros Hq. destruct (quote_first f Hq) as (Hangle & Hblank & Hfirst).
  assert (Hs : parse_subject f = Literal f None None).
  { unfold parse_subject. by rewrite Hangle, Hblank. }
  assert (Ho : parse_object f = Literal (strip f quotes) None None).
  { unfold parse_object. by rewrite Hangle, Hblank, Hq. }
  destruct (strip_spec f quotes) as (l & r & Hf & Hl & Hr & Hfst & Hlst).
  split_and!; [done | done | by exists l, r |].
  rewrite Hs, Ho. intros [= Heq]. rewrite <- Heq in Hfst. congruence.
Qed.

Lemma quoted_subject_keeps_quotes_witness :
  parse_subject (String dquote ("John Doe" +:+ String dquote EmptyString))
  = Literal (String dquote ("John Doe" +:+ String dquote EmptyString)) None None
  ∧ parse_object (String dquote ("John Doe" +:+ String dquote EmptyString))
    = Literal "John Doe" None None.
Proof.
  pose proof (quoted_subject_keeps_quotes
                (String dquote ("John Doe" +:+ String dquote EmptyString))
                eq_refl) as (Hs & Ho & _).
  split; [exact Hs | exact Ho].
Defined.

(** C4. A language-tagged literal: [n3] writes
    [Literal hello None (Some en)] as the quoted lexical form followed
    by [@en].  In the object position that text starts with a quote and
    is stripped at its two ends only: the opening quote goes, the
    closing quote and the suffix [@en] stay, because the text ends with
    [n].  The decoded literal has no language and no datatype, and its
    lexical value is not [hello]. *)
Theorem lang_literal_keeps_suffix :
  n3 (Literal "hello" None (Some "en"))
  = String dquote ("hello" +:+ String dquote "@en")
  ∧ (∀ s p, object (Encode (s, p, Literal "hello" None (Some "en")))
            = String dquote ("hello" +:+ String dquote "@en"))
  ∧ parse_object (n3 (Literal "hello" None (Some "en")))
    = Literal ("hello" +:+ String dquote "@en") None None
  ∧ parse_object (n3 (Literal "hello" None (Some "en")))
    ≠ Literal "hello" None None.
Proof. split_and!; [reflexivity | reflexivity | reflexivity | discriminate]. Qed.

(** ** The effect of the two methods on the world *)
Section WorldFacts.

Lemma bind_Ok {A B : Type} (a : A) (f : A → result B) : Ok a ≫= f = f a.
Proof. reflexivity. Qed.

Lemma for_each_app {S B : Type} (body : S → B → result S) (st : S) (l1 l2 : list B) :
  for_each body st (l1 ++ l2)
  = for_each body st l1 ≫= λ st', for_each body st' l2.
Proof.
  revert st. induction l1 as [|x l1 IH]; intros st; simpl; [done |].
  destruct (body st x) as [st1|e]; simpl; [apply IH | done].
Qed.

Lemma graph_add_ok (self gr : positive) (G : gset Triple) (t : Triple)
    (w : World) :
  attr_g w !! self = Some gr →
  graphs w !! gr = Some G →
  graph_add self w t
  = Ok {| files := files w;
          attr_g := attr_g w;
          graphs := <[gr := {[t]} ∪ G]> (graphs w) |}.
Proof. intros Hself Hgr. unfold graph_add. by rewrite Hself, Hgr. Qed.

(** Adding the triples of a list one by one adds the set of the
    list to the graph of [self], and changes nothing else. *)
Lemma for_each_graph_add (self gr : positive) (G : gset Triple)
    (ts : list Triple) (w : World) :
  attr_g w !! self = Some gr →
  graphs w !! gr = Some G →
  for_each (graph_add self) w ts
  = Ok {| files := files w;
          attr_g := attr_g w;
          graphs := <[gr := G ∪ list_to_set ts]> (graphs w) |}.
Proof.
  revert w G. induction ts as [|t ts IH]; intros w G Hself Hgr;
    cbn [for_each].
  - destruct w as [fs ag gs]; simpl in *. do 2 f_equal.
    rewrite (right_id_L ∅ (∪)). by rewrite insert_id.
  - rewrite (graph_add_ok self gr G t w Hself Hgr), bind_Ok.
    erewrite IH; [| done | by apply lookup_insert_eq]. simpl.
    do 2 f_equal. rewrite insert_insert_eq. f_equal.
    rewrite (comm_L (∪) {[t]} G). by rewrite (assoc_L (∪)).
Qed.

(** The batch loop adds, in order, the triples of all its batches. *)
Lemma for_each_load_batch (self : positive) (df : list Row) (k : Z)
    (starts : list Z) (w : World) :
  for_each (load_batch self df k) w starts
  = for_each (graph_add self) w
      (concat ((λ start, batch_triples (batch_at df k start)) <$> starts)).
Proof.
  revert w. induction starts as [|start starts IH]; intros w; [done |].
  rewrite fmap_cons. cbn [concat for_each]. rewrite for_each_app.
  change (load_batch self df k w start)
    with (for_each (graph_add self) w (batch_triples (batch_at df k start))).
  destruct (for_each (graph_add self) w (batch_triples (batch_at df k start)))
    as [w1|e]; [| done].
  rewrite !bind_Ok. apply IH.
Qed.

(** [load_parquet] in terms of the decode loop: the decoded triples
    are added to the graph of [self], and [self] is returned. *)
Lemma load_parquet_DecodeBatch (self gr : positive) (G : gset Triple)
    (path : string) (df : list Row) (k : Z) (w : World) :
  attr_g w !! self = Some gr →
  graphs w !! gr = Some G →
  files w !! path = Some df →
  load_parquet self path k w
  = DecodeBatch df k ≫= λ ts,
      Ok ({| files := files w;
             attr_g := attr_g w;
             graphs := <[gr := G ∪ list_to_set ts]> (graphs w) |}, self).
Proof.
  intros Hself Hgr Hfile. unfold load_parquet, read_parquet, DecodeBatch.
  rewrite Hfile. simpl.
  destruct (py_range 0 (Z.of_nat (length df)) k) as [starts|e]; simpl; [| done].
  rewrite for_each_load_batch.
  by rewrite (for_each_graph_add self gr G _ w Hself Hgr).
Qed.

Lemma save_parquet_rows (self gr : positive) (G : gset Triple)
    (path : string) (w : World) :
  attr_g w !! self = Some gr →
  graphs w !! gr = Some G →
  save_parquet self path w
  = Ok {| files := <[path := Encode <$> elements G]> (files w);
          attr_g := attr_g w;
          graphs := graphs w |}.
Proof.
  intros Hself Hgr. unfold save_parquet, graph_iter.
  by rewrite Hself, Hgr.
Qed.

(** Decoding the encoded triples of a graph whose triples all
    survive the round trip gives the graph back. *)
Lemma roundtrip_set (G : gset Triple) :
  (∀ t, t ∈ G → decode_row (Encode t) = t) →
  list_to_set (C := gset Triple) (decode_row <$> (Encode <$> elements G)) = G.
Proof.
  intros Hrt. rewrite <- list_fmap_compose.
  rewrite (list_fmap_ext (decode_row ∘ Encode) id (elements G)).
  - rewrite list_fmap_id. apply list_to_set_elements_L.
  - intros i t Hi. simpl. apply Hrt.
    apply elem_of_elements, list_elem_of_lookup. eauto.
Qed.

End WorldFacts.

Section LoadFacts.

(** A call of [load_parquet] with a non-zero batch size on an
    existing file returns [self]; the graph of [self] gains the
    decoded triples and the rest of the world stays as it was. *)
Lemma load_parquet_effect (self gr : positive) (G : gset Triple)
    (path : string) (df : list Row) (k : Z) (w : World) :
  attr_g w !! self = Some gr →
  graphs w !! gr = Some G →
  files w !! path = Some df →
  k ≠ 0 →
  ∃ w' ts,
    load_parquet self path k w = Ok (w', self)
    ∧ DecodeBatch df k = Ok ts
    ∧ graph_of self w' = Some (G ∪ list_to_set ts)
    ∧ attr_g w' = attr_g w
    ∧ files w' = files w
    ∧ graphs w' = <[gr := G ∪ list_to_set ts]> (graphs w).
Proof.
  intros Hself Hgr Hfile Hk.
  destruct (DecodeBatch_returns df k Hk) as [ts Hts].
  eexists _, ts. split_and!.
  - rewrite (load_parquet_DecodeBatch self gr G path df k w) by done.
    rewrite Hts. reflexivity.
  - done.
  - unfold graph_of. simpl. rewrite Hself. simpl. apply lookup_insert_eq.
  - done.
  - done.
  - done.
Qed.

(** With a positive batch size the graph gains the decoding of
    every row. *)
Lemma load_parquet_positive (self gr : positive) (G : gset Triple)
    (path : string) (df : list Row) (k : Z) (w : World) :
  attr_g w !! self = Some gr →
  graphs w !! gr = Some G →
  files w !! path = Some df →
  1 ≤ k →
  load_parquet self path k w
  = Ok ({| files := files w;
           attr_g := attr_g w;
           graphs := <[gr := G ∪ list_to_set (decode_row <$> df)]> (graphs w) |},
        self).
Proof.
  intros Hself Hgr Hfile Hk.
  rewrite (load_parquet_DecodeBatch self gr G path df k w) by done.
  by rewrite DecodeBatch_fmap.
Qed.

End LoadFacts.

(** C10. [load_parquet] only adds: for every world in which [self]
    is a [KnowledgeGraph] with graph [G], every file of rows and every
    non-zero batch size, the call returns [self] itself; afterwards the
    graph of [self] is [G] together with the decoded triples, so every
    triple of [G] is still there; no other graph, no attribute and no
    file has changed; and a second load into the returned object
    returns [self] again and keeps what the first one left. *)
Theorem load_parquet_only_adds (self gr : positive) (G : gset Triple)
    (path : string) (df : list Row) (k : Z) (w : World) :
  attr_g w !! self = Some gr →
  graphs w !! gr = Some G →
  files w !! path = Some df →
  k ≠ 0 →
  ∃ w' G' ts,
    load_parquet self path k w = Ok (w', self)
    ∧ DecodeBatch df k = Ok ts
    ∧ graph_of self w' = Some G'
    ∧ G' = G ∪ list_to_set ts
    ∧ (∀ t, t ∈ G → t ∈ G')
    ∧ attr_g w' = attr_g w
    ∧ files w' = files w
    ∧ (∀ gr', gr' ≠ gr → graphs w' !! gr' = graphs w !! gr')
    ∧ (∃ w'' G'',
          load_parquet self path k w' = Ok (w'', self)
          ∧ graph_of self w'' = Some G''
          ∧ (∀ t, t ∈ G' → t ∈ G'')).
Proof.
  intros Hself Hgr Hfile Hk.
  destruct (load_parquet_effect self gr G path df k w Hself Hgr Hfile Hk)
    as (w' & ts & Hload & Hts & Hgraph & Hattr & Hfiles & Hgraphs).
  exists w', (G ∪ list_to_set ts), ts. split_and!; try done.
  - intros t Ht. apply elem_of_union. by left.
  - intros gr' Hne. rewrite Hgraphs. by apply lookup_insert_ne.
  - destruct (load_parquet_effect self gr (G ∪ list_to_set ts) path df k w')
      as (w'' & ts' & Hload' & _ & Hgraph' & _); try done.
    + by rewrite Hattr.
    + rewrite Hgraphs. apply lookup_insert_eq.
    + by rewrite Hfiles.
    + exists w'', (G ∪ list_to_set ts ∪ list_to_set ts').
      split_and!; [done | done |].
      intros t Ht. apply elem_of_union. by left.
Qed.

Lemma load_parquet_only_adds_witness :
  ∃ w' G' ts,
    load_parquet 1%positive "g.parquet" 2
      {| files := {[ "g.parquet" := [mkRow "<a>" "<b>" "<c>"; mkRow "_:x" "p" "lit"; mkRow "<a>" "<b>" "<c>"] ]};
         attr_g := {[ 1%positive := 5%positive ]};
         graphs := {[ 5%positive := {[ (URIRef "x", URIRef "y", URIRef "z") ]} ]} |}
    = Ok (w', 1%positive)
    ∧ DecodeBatch [mkRow "<a>" "<b>" "<c>"; mkRow "_:x" "p" "lit"; mkRow "<a>" "<b>" "<c>"] 2 = Ok ts
    ∧ graph_of 1%positive w' = Some G'
    ∧ (URIRef "x", URIRef "y", URIRef "z") ∈ G'.
Proof.
  destruct (load_parquet_only_adds 1%positive 5%positive
              {[ (URIRef "x", URIRef "y", URIRef "z") ]}
              "g.parquet"
              [mkRow "<a>" "<b>" "<c>"; mkRow "_:x" "p" "lit"; mkRow "<a>" "<b>" "<c>"]
              2
              {| files := {[ "g.parquet" := [mkRow "<a>" "<b>" "<c>"; mkRow "_:x" "p" "lit"; mkRow "<a>" "<b>" "<c>"] ]};
                 attr_g := {[ 1%positive := 5%positive ]};
                 graphs := {[ 5%positive := {[ (URIRef "x", URIRef "y", URIRef "z") ]} ]} |})
    as (w' & G' & ts & Hload & Hts & Hgraph & _ & Hkeep & _).
  - reflexivity.
  - reflexivity.
  - reflexivity.
  - lia.
  - exists w', G', ts. split_and!; [done | done | done |].
    apply Hkeep. by apply elem_of_singleton.
Defined.

Section QuickStart.

Lemma john_roundtrip (t : Triple) :
  t ∈ john_triples → decode_row (Encode t) = t.
Proof.
  unfold john_triples. rewrite !elem_of_cons, elem_of_nil.
  intros [-> | [-> | [-> | []]]]; reflexivity.
Qed.

Lemma john_size : size (list_to_set (C := gset Triple) john_triples) = 3%nat.
Proof.
  rewrite size_list_to_set; [done |].
  unfold john_triples. repeat constructor;
    rewrite ?elem_of_cons, ?elem_of_nil; intros H;
    repeat destruct H as [H | H]; done.
Qed.

End QuickStart.

(** C8. The quick-start scenario: the three triples about [ex:John]
    are encoded and decoded again.  The decode loop returns the three
    original triples, in order.  Through the file: when the graph of
    [kg] holds the three triples and [kg2] is an empty graph, saving
    [kg] and loading the file into [kg2] leaves in [kg2] a graph of
    exactly 3 triples, the original ones: every subject is [ex:John],
    every predicate is the original IRI, and the object of [ex:name] is
    the literal whose lexical value is [John Doe]. *)
Theorem john_doe_end_to_end (kg kg2 gr gr2 : positive) (path : string)
    (w : World) :
  attr_g w !! kg = Some gr →
  graphs w !! gr = Some (list_to_set john_triples) →
  attr_g w !! kg2 = Some gr2 →
  graphs w !! gr2 = Some ∅ →
  DecodeBatch (Encode <$> john_triples) default_batch_size = Ok john_triples
  ∧ ∃ w1 w2 G2,
      save_parquet kg path w = Ok w1
      ∧ load_parquet kg2 path default_batch_size w1 = Ok (w2, kg2)
      ∧ graph_of kg2 w2 = Some G2
      ∧ size G2 = 3%nat
      ∧ G2 = list_to_set john_triples
      ∧ (∀ s p o, (s, p, o) ∈ G2 →
           s = ex_John
           ∧ (p = rdf_type ∧ o = ex_Person
              ∨ p = ex_name ∧ o = Literal "John Doe" None None
              ∨ p = ex_knows ∧ o = ex_Jane)).
Proof.
  intros Hkg Hgr Hkg2 Hgr2. split; [reflexivity |].
  pose proof (save_parquet_rows kg gr _ path w Hkg Hgr) as Hsave.
  pose proof (roundtrip_set (list_to_set john_triples)) as Hrt.
  revert Hsave Hrt.
  generalize (Encode <$> elements (list_to_set (C := gset Triple) john_triples)).
  intros rows Hsave Hrt.
  eexists _, _, (list_to_set john_triples). split_and!.
  - exact Hsave.
  - apply (load_parquet_positive kg2 gr2 ∅ path rows); cbn [files attr_g graphs].
    + exact Hkg2.
    + exact Hgr2.
    + apply lookup_insert_eq.
    + unfold default_batch_size. lia.
  - unfold graph_of. cbn [files attr_g graphs]. rewrite Hkg2.
    cbn [mbind option_bind]. rewrite lookup_insert_eq.
    rewrite (left_id_L ∅ (∪)), Hrt; [done |].
    intros t Ht. apply john_roundtrip. by apply elem_of_list_to_set in Ht.
  - apply john_size.
  - reflexivity.
  - intros s p o. rewrite elem_of_list_to_set. unfold john_triples.
    rewrite !elem_of_cons, elem_of_nil.
    intros [[= -> -> ->] | [[= -> -> ->] | [[= -> -> ->] | []]]]; auto.
Qed.

Lemma john_doe_end_to_end_witness :
  ∃ w1 w2,
    save_parquet 1%positive "example.parquet" quickstart_world = Ok w1
    ∧ load_parquet 2%positive "example.parquet" default_batch_size w1
      = Ok (w2, 2%positive)
    ∧ graph_of 2%positive w2 = Some (list_to_set john_triples).
Proof.
  destruct (john_doe_end_to_end 1%positive 2%positive 1%positive 2%positive
              "example.parquet" quickstart_world)
    as (_ & w1 & w2 & G2 & Hsave & Hload & Hgraph & _ & -> & _).
  - reflexivity.
  - reflexivity.
  - reflexivity.
  - reflexivity.
  - by exists w1, w2.
Defined.

(** ** Checks on concrete inputs *)

Example parse_object_iri :
  parse_object "<http://example.org/Jane>" = URIRef "http://example.org/Jane".
Proof. reflexivity. Qed.

Example DecodeBatch_two :
  DecodeBatch [mkRow "<a>" "<b>" "<c>"; mkRow "_:x" "p" "lit";
               mkRow EmptyString EmptyString EmptyString] 2
  = Ok [(URIRef "a", URIRef "b", URIRef "c");
        (BNode "x", URIRef "p", Literal "lit" None None);
        (Literal EmptyString None None, URIRef EmptyString,
         Literal EmptyString None None)].
Proof. reflexivity. Qed.

Example DecodeBatch_zero :
  DecodeBatch [mkRow "<a>" "<b>" "<c>"] 0 = Raise ValueError.
Proof. reflexivity. Qed.

Example load_parquet_zero :
  load_parquet 1%positive "example.parquet" 0
    {| files := {[ "example.parquet" := [mkRow "<a>" "<b>" "<c>"] ]};
       attr_g := {[ 1%positive := 1%positive ]};
       graphs := {[ 1%positive := ∅ ]} |}
  = Raise ValueError.
Proof. reflexivity. Qed.

Example load_parquet_missing :
  load_parquet 2%positive "other.parquet" default_batch_size quickstart_world
  = Raise FileNotFoundError.
Proof. reflexivity. Qed.

(** ** Further properties of [load_parquet] *)
Section LoadEdges.

Lemma for_each_nil {S B : Type} (body : S → B → result S) (st : S) :
  for_each body st [] = Ok st.
Proof. reflexivity. Qed.

Lemma py_range_negative (total k : Z) :
  0 ≤ total → k < 0 → py_range 0 total k = Ok [].
Proof.
  intros Ht Hk. unfold py_range, range_len.
  destruct (Z.eqb_spec k 0); [lia |].
  destruct (Z.ltb_spec 0 k); [lia |].
  destruct (Z.ltb_spec total 0); [lia |]. done.
Qed.

Lemma py_range_members (total k : Z) (starts : list Z) :
  0 ≤ total → 1 ≤ k →
  py_range 0 total k = Ok starts →
  ∀ start, start ∈ starts → 0 ≤ start < total.
Proof.
  intros Ht Hk. unfold py_range, range_len.
  destruct (Z.eqb_spec k 0); [lia |].
  destruct (Z.ltb_spec 0 k); [| lia].
  intros [= <-] start [i [-> Hi]]%list_elem_of_fmap.
  apply elem_of_seq in Hi.
  destruct (Z.ltb_spec 0 total); [| simpl in Hi; lia].
  pose proof (Z.div_pos (total - 0 - 1) k ltac:(lia) ltac:(lia)).
  pose proof (Z.mul_div_le (total - 0 - 1) k ltac:(lia)).
  assert (Z.of_nat i ≤ (total - 0 - 1) / k) by lia.
  nia.
Qed.

Lemma length_batch_at (df : list Row) (k start : Z) :
  1 ≤ k → 0 ≤ start < Z.of_nat (length df) →
  Z.of_nat (length (batch_at df k start))
  = Z.min k (Z.of_nat (length df) - start).
Proof.
  intros Hk Hs. unfold batch_at, iloc.
  rewrite !clamp_nonneg by lia.
  rewrite length_take, length_drop. lia.
Qed.

End LoadEdges.



(** X2. A negative batch size makes the range of batch starts empty:
    the call reads the file, adds nothing, and returns [self] with the
    world exactly as it was. *)
Theorem load_parquet_negative_noop (self : positive) (path : string)
    (df : list Row) (k : Z) (w : World) :
  files w !! path = Some df →
  k < 0 →
  load_parquet self path k w = Ok (w, self).
Proof.
  intros Hfile Hk. unfold load_parquet, read_parquet. rewrite Hfile.
  rewrite bind_Ok. cbn zeta. rewrite py_range_negative by lia.
  by rewrite bind_Ok, for_each_nil, bind_Ok.
Qed.

Lemma load_parquet_negative_noop_witness :
  load_parquet 1%positive "g.parquet" (-5)
    {| files := {[ "g.parquet" := [mkRow "<a>" "<b>" "<c>"] ]};
       attr_g := {[ 1%positive := 1%positive ]};
       graphs := {[ 1%positive := ∅ ]} |}
  = Ok ({| files := {[ "g.parquet" := [mkRow "<a>" "<b>" "<c>"] ]};
           attr_g := {[ 1%positive := 1%positive ]};
           graphs := {[ 1%positive := ∅ ]} |}, 1%positive).
Proof.
  apply (load_parquet_negative_noop 1%positive "g.parquet"
           [mkRow "<a>" "<b>" "<c>"]); [reflexivity | lia].
Defined.

(** X3. Loading is idempotent: the graph is a set, so a second load
    of the same file into the same object leaves the world that the
    first load produced. *)
Theorem load_parquet_idempotent (self gr : positive) (G : gset Triple)
    (path : string) (df : list Row) (k : Z) (w : World) :
  attr_g w !! self = Some gr →
  graphs w !! gr = Some G →
  files w !! path = Some df →
  k ≠ 0 →
  ∃ w', load_parquet self path k w = Ok (w', self)
        ∧ load_parquet self path k w' = Ok (w', self).
Proof.
  intros Hself Hgr Hfile Hk.
  destruct (load_parquet_effect self gr G path df k w Hself Hgr Hfile Hk)
    as (w' & ts & Hload & Hts & _ & Hattr & Hfiles & Hgraphs).
  exists w'. split; [done |].
  rewrite (load_parquet_DecodeBatch self gr (G ∪ list_to_set ts) path df k w').
  - rewrite Hts, bind_Ok. do 2 f_equal.
    destruct w' as [fs ag gs]; simpl in *. subst. f_equal.
    rewrite insert_insert_eq. f_equal.
    rewrite <- (assoc_L (∪)). by rewrite (idemp_L (∪)).
  - by rewrite Hattr.
  - rewrite Hgraphs. apply lookup_insert_eq.
  - by rewrite Hfiles.
Qed.

Lemma load_parquet_idempotent_witness :
  ∃ w', load_parquet 2%positive "example.parquet" 2
          {| files := {[ "example.parquet" := Encode <$> john_triples ]};
             attr_g := {[ 2%positive := 2%positive ]};
             graphs := {[ 2%positive := ∅ ]} |} = Ok (w', 2%positive)
        ∧ load_parquet 2%positive "example.parquet" 2 w' = Ok (w', 2%positive).
Proof.
  apply (load_parquet_idempotent 2%positive 2%positive ∅ "example.parquet"
           (Encode <$> john_triples)); [reflexivity | reflexivity | reflexivity | lia].
Defined.

(** X4. Only the set of rows matters: two files that hold the same
    rows, in any order and with any repetition, loaded with any two
    positive batch sizes, give the same world. *)
Theorem load_parquet_rows_as_set (self gr : positive) (G : gset Triple)
    (path path' : string) (df df' : list Row) (k k' : Z) (w : World) :
  attr_g w !! self = Some gr →
  graphs w !! gr = Some G →
  files w !! path = Some df →
  files w !! path' = Some df' →
  (∀ row, row ∈ df ↔ row ∈ df') →
  1 ≤ k → 1 ≤ k' →
  load_parquet self path k w = load_parquet self path' k' w.
Proof.
  intros Hself Hgr Hfile Hfile' Hrows Hk Hk'.
  rewrite (load_parquet_positive self gr G path df k w) by done.
  rewrite (load_parquet_positive self gr G path' df' k' w) by done.
  assert (list_to_set (C := gset Triple) (decode_row <$> df)
          = list_to_set (decode_row <$> df')) as ->; [| done].
  apply set_eq. intros t.
  rewrite !elem_of_list_to_set, !list_elem_of_fmap.
  split; intros (row & -> & Hrow); exists row; split; try done; by apply Hrows.
Qed.

Lemma load_parquet_rows_as_set_witness :
  load_parquet 1%positive "a.parquet" 1
    {| files := {[ "a.parquet" := [mkRow "<a>" "<b>" "<c>"; mkRow "_:x" "<p>" "lit"];
                   "b.parquet" := [mkRow "_:x" "<p>" "lit"; mkRow "<a>" "<b>" "<c>";
                                   mkRow "_:x" "<p>" "lit"] ]};
       attr_g := {[ 1%positive := 1%positive ]};
       graphs := {[ 1%positive := ∅ ]} |}
  = load_parquet 1%positive "b.parquet" 7
      {| files := {[ "a.parquet" := [mkRow "<a>" "<b>" "<c>"; mkRow "_:x" "<p>" "lit"];
                     "b.parquet" := [mkRow "_:x" "<p>" "lit"; mkRow "<a>" "<b>" "<c>";
                                     mkRow "_:x" "<p>" "lit"] ]};
         attr_g := {[ 1%positive := 1%positive ]};
         graphs := {[ 1%positive := ∅ ]} |}.
Proof.
  apply (load_parquet_rows_as_set 1%positive 1%positive ∅ "a.parquet" "b.parquet"
           [mkRow "<a>" "<b>" "<c>"; mkRow "_:x" "<p>" "lit"]
           [mkRow "_:x" "<p>" "lit"; mkRow "<a>" "<b>" "<c>"; mkRow "_:x" "<p>" "lit"]);
    [reflexivity | reflexivity | reflexivity | reflexivity | | lia | lia].
  intros row. rewrite !elem_of_cons, !elem_of_nil. tauto.
Defined.

(** X5. The memory bound of the batching: for a batch size [k >= 1],
    every batch that the loop takes from the data frame is non-empty
    and holds at most [k] rows, and it holds exactly [k] rows unless it
    is cut by the end of the data frame. *)
Theorem batch_size_bound (df : list Row) (k : Z) (starts : list Z) :
  1 ≤ k →
  py_range 0 (Z.of_nat (length df)) k = Ok starts →
  ∀ start, start ∈ starts →
    1 ≤ Z.of_nat (length (batch_at df k start)) ≤ k
    ∧ (start + k ≤ Z.of_nat (length df) →
       Z.of_nat (length (batch_at df k start)) = k).
Proof.
  intros Hk Hrange start Hstart.
  pose proof (py_range_members (Z.of_nat (length df)) k starts
                ltac:(lia) Hk Hrange start Hstart).
  rewrite length_batch_at by lia. lia.
Qed.

Lemma batch_size_bound_witness :
  1 ≤ Z.of_nat (length (batch_at (Encode <$> john_triples) 2 2)) ≤ 2.
Proof.
  apply (batch_size_bound (Encode <$> john_triples) 2 [0; 2]);
    [lia | reflexivity |].
  apply elem_of_cons. right. apply elem_of_cons. by left.
Defined.

(** ** Which terms the codec gives back *)
Section CodecFacts.



Lemma rstrip_snoc (s chars : string) (q : ascii) :
  char_in q chars = true →
  rstrip (s +:+ String q EmptyString) chars = rstrip s chars.
Proof.
  intros Hq. induction s as [|c s IH].
  - rewrite app_nil_l. simpl. by rewrite Hq.
  - rewrite app_cons. simpl. by rewrite IH.
Qed.

Lemma lstrip_all (s chars : string) :
  all_in s chars = true → lstrip s chars = EmptyString.
Proof.
  induction s as [|c s IH]; simpl; [done |].
  intros [-> H]%andb_true_iff. by apply IH.
Qed.

Lemma lstrip_app (s t chars : string) :
  all_in s chars = false → lstrip (s +:+ t) chars = lstrip s chars +:+ t.
Proof.
  induction s as [|c s IH]; [done |].
  rewrite app_cons. simpl. destruct (char_in c chars); simpl; [apply IH | done].
Qed.

Lemma strip_snoc (s chars : string) (q : ascii) :
  char_in q chars = true →
  strip (s +:+ String q EmptyString) chars = strip s chars.
Proof.
  intros Hq. unfold strip. destruct (all_in s chars) eqn:Hall.
  - rewrite (lstrip_all s) by done.
    assert (all_in (s +:+ String q EmptyString) chars = true) as Hall'.
    { clear -Hq Hall. induction s as [|c s IH].
      - rewrite app_nil_l. simpl. by rewrite Hq.
      - rewrite app_cons. simpl in *.
        apply andb_true_iff in Hall as [-> Hall]. by apply IH. }
    by rewrite lstrip_all.
  - rewrite lstrip_app by done. by apply rstrip_snoc.
Qed.


(** The object parse of a text that opens with a double quote. *)
Lemma parse_object_dquote (rest : string) :
  parse_object (String dquote rest) = Literal (strip rest quotes) None None.
Proof. reflexivity. Qed.

Lemma parse_subject_dquote (rest : string) :
  parse_subject (String dquote rest) = Literal (String dquote rest) None None.
Proof. reflexivity. Qed.

(** The notation of a literal opens with a double quote and is longer
    than its lexical value. *)
Lemma n3_literal_shape (lex : string) (dt lang : option string) :
  ∃ rest, n3 (Literal lex dt lang) = String dquote rest
          ∧ (String.length lex < String.length rest)%nat.
Proof.
  destruct dt as [d|], lang as [l|]; simpl; rewrite ?app_cons;
    eexists; (split; [reflexivity |]); rewrite !length_app; simpl; lia.
Qed.

Lemma parse_no_tags (f lex : string) (dt lang : option string) :
  parse_subject f = Literal lex dt lang
  ∨ parse_predicate f = Literal lex dt lang
  ∨ parse_object f = Literal lex dt lang →
  dt = None ∧ lang = None.
Proof.
  unfold parse_subject, parse_predicate, parse_object.
  intros [H | [H | H]]; revert H;
    repeat (match goal with |- context [if ?b then _ else _] => destruct b end);
    by intros [=].
Qed.

(** On a text that does not open with a quote the subject and the
    object parse are the same function. *)
Lemma parse_unquoted (f : string) :
  startswith f (String dquote EmptyString)
  || startswith f (String squote EmptyString) = false →
  parse_subject f = parse_object f.
Proof.
  intros H. unfold parse_subject, parse_object. rewrite H.
  by repeat (match goal with |- context [if ?b then _ else _] => destruct b end).
Qed.

Lemma parse_quoted_differ (f : string) :
  startswith f (String dquote EmptyString)
  || startswith f (String squote EmptyString) = true →
  parse_subject f ≠ parse_object f.
Proof.
  intros Hq. destruct (quote_first f Hq) as (Hangle & Hblank & Hfirst).
  unfold parse_subject, parse_object. rewrite Hangle, Hblank, Hq. simpl.
  intros [= Heq].
  destruct (strip_spec f quotes) as (_ & _ & _ & _ & _ & Hfst & _).
  rewrite <- Heq in Hfst. congruence.
Qed.

End CodecFacts.

(** X6. Datatypes and language tags are never decoded: whatever the
    field text, no parse returns a literal with a datatype or a
    language.  Hence a triple whose object is a typed or a
    language-tagged literal never comes back from [Encode] followed by
    [decode_row] as it was. *)
Theorem decode_drops_tags (s p : Term) (lex : string) (dt lang : option string) :
  is_Some dt ∨ is_Some lang →
  (∀ row s' p' o' l d g,
      decode_row row = (s', p', o') →
      s' = Literal l d g ∨ p' = Literal l d g ∨ o' = Literal l d g →
      d = None ∧ g = None)
  ∧ decode_row (Encode (s, p, Literal lex dt lang)) ≠ (s, p, Literal lex dt lang).
Proof.
  intros Htag. split.
  - intros row s' p' o' l d g [= <- <- <-] [H | [H | H]];
      eapply parse_no_tags; eauto.
  - unfold decode_row, Encode. cbn [subject predicate object].
    intros [= _ _ Ho].
    destruct (parse_no_tags _ _ _ _ (or_intror (or_intror Ho))) as [-> ->].
    by destruct Htag as [[? ?] | [? ?]].
Qed.

Lemma decode_drops_tags_witness :
  decode_row (Encode (ex_John, ex_name,
                      Literal "1879-03-14" (Some "http://www.w3.org/2001/XMLSchema#date") None))
  ≠ (ex_John, ex_name,
     Literal "1879-03-14" (Some "http://www.w3.org/2001/XMLSchema#date") None).
Proof.
  apply (decode_drops_tags ex_John ex_name "1879-03-14"
           (Some "http://www.w3.org/2001/XMLSchema#date") None).
  left. by eexists.
Defined.

(** X7. A literal in the subject position is not restored: its
    notation opens with a quote, the subject parse has no branch for
    that, and the whole notation, quotes and suffix included, becomes
    the lexical value of a plain literal. *)
Theorem literal_subject_not_restored (lex : string) (dt lang : option string) :
  parse_subject (n3 (Literal lex dt lang))
  = Literal (n3 (Literal lex dt lang)) None None
  ∧ parse_subject (n3 (Literal lex dt lang)) ≠ Literal lex dt lang.
Proof.
  destruct (n3_literal_shape lex dt lang) as (rest & Hn3 & Hlen).
  rewrite Hn3, parse_subject_dquote. split; [done |].
  intros [= Heq _ _]. rewrite <- Heq in Hlen. simpl in Hlen. lia.
Qed.


(** X9. The subject and the object parse agree on a field text
    exactly when the text does not open with a double or single
    quote. *)
Theorem subject_object_agree_iff (f : string) :
  parse_subject f = parse_object f
  ↔ startswith f (String dquote EmptyString)
    || startswith f (String squote EmptyString) = false.
Proof.
  split.
  - intros Heq. destruct (_ || _) eqn:Hq; [| done].
    by destruct (parse_quoted_differ f Hq).
  - apply parse_unquoted.
Qed.

(** ** Saving a graph and loading it again *)
Section Reload.

Lemma parse_object_plain (lex : string) :
  parse_object (n3 (Literal lex None None)) = Literal (strip lex quotes) None None.
Proof. cbn [n3]. rewrite parse_object_dquote. by rewrite strip_snoc. Qed.





Lemma size_list_to_set_le `{Countable A} (l : list A) :
  (size (list_to_set (C := gset A) l) ≤ length l)%nat.
Proof.
  induction l as [|x l IH].
  - rewrite list_to_set_nil, size_empty. done.
  - rewrite list_to_set_cons, size_union_alt, size_singleton. simpl length.
    pose proof (subseteq_size (list_to_set (C := gset A) l ∖ {[x]})
                  (list_to_set l)) as Hle.
    assert (list_to_set (C := gset A) l ∖ {[x]} ⊆ list_to_set l) as Hsub.
    { intros t Ht. by apply elem_of_difference in Ht as [Ht _]. }
    specialize (Hle Hsub). lia.
Qed.

(** Saving [kg] and loading the file into [kg2] adds to the graph of
    [kg2] the decoded encodings of the triples of [kg]. *)
Lemma reload_effect (kg kg2 gr gr2 : positive) (G G0 : gset Triple)
    (path : string) (k : Z) (w : World) :
  attr_g w !! kg = Some gr →
  graphs w !! gr = Some G →
  attr_g w !! kg2 = Some gr2 →
  graphs w !! gr2 = Some G0 →
  1 ≤ k →
  ∃ w1 w2,
    save_parquet kg path w = Ok w1
    ∧ load_parquet kg2 path k w1 = Ok (w2, kg2)
    ∧ graph_of kg2 w2
      = Some (G0 ∪ list_to_set (decode_row <$> (Encode <$> elements G))).
Proof.
  intros Hkg Hgr Hkg2 Hgr2 Hk.
  pose proof (save_parquet_rows kg gr G path w Hkg Hgr) as Hsave.
  revert Hsave. generalize (Encode <$> elements G). intros rows Hsave.
  eexists _, _. split_and!.
  - exact Hsave.
  - apply (load_parquet_positive kg2 gr2 G0 path rows); cbn [files attr_g graphs].
    + exact Hkg2.
    + exact Hgr2.
    + apply lookup_insert_eq.
    + exact Hk.
  - unfold graph_of. cbn [files attr_g graphs]. rewrite Hkg2.
    cbn [mbind option_bind]. by rewrite lookup_insert_eq.
Qed.

End Reload.

(** X10. Saving a graph and loading the file into an empty graph
    gives the set of the decoded encodings of its triples, so the
    loaded graph never has more triples than the saved one. *)
Theorem reload_never_grows (kg kg2 gr gr2 : positive) (G : gset Triple)
    (path : string) (k : Z) (w : World) :
  attr_g w !! kg = Some gr →
  graphs w !! gr = Some G →
  attr_g w !! kg2 = Some gr2 →
  graphs w !! gr2 = Some ∅ →
  1 ≤ k →
  ∃ w1 w2 G2,
    save_parquet kg path w = Ok w1
    ∧ load_parquet kg2 path k w1 = Ok (w2, kg2)
    ∧ graph_of kg2 w2 = Some G2
    ∧ (∀ t', t' ∈ G2 ↔ ∃ t, t ∈ G ∧ t' = decode_row (Encode t))
    ∧ (size G2 ≤ size G)%nat.
Proof.
  intros Hkg Hgr Hkg2 Hgr2 Hk.
  destruct (reload_effect kg kg2 gr gr2 G ∅ path k w Hkg Hgr Hkg2 Hgr2 Hk)
    as (w1 & w2 & Hsave & Hload & Hgraph).
  rewrite (left_id_L ∅ (∪)) in Hgraph.
  exists w1, w2, (list_to_set (decode_row <$> (Encode <$> elements G))).
  split_and!; [done | done | done | |].
  - intros t'. rewrite elem_of_list_to_set, <- list_fmap_compose, list_elem_of_fmap.
    split.
    + intros (t & -> & Ht%elem_of_elements). by exists t.
    + intros (t & Ht & ->). exists t. by rewrite elem_of_elements.
  - etrans; [apply size_list_to_set_le |].
    by rewrite !length_fmap.
Qed.

Lemma reload_never_grows_witness :
  ∃ w1 w2 G2,
    save_parquet 1%positive "example.parquet" quickstart_world = Ok w1
    ∧ load_parquet 2%positive "example.parquet" 2 w1 = Ok (w2, 2%positive)
    ∧ graph_of 2%positive w2 = Some G2
    ∧ (size G2 ≤ size (list_to_set (C := gset Triple) john_triples))%nat.
Proof.
  destruct (reload_never_grows 1%positive 2%positive 1%positive 2%positive
              (list_to_set john_triples) "example.parquet" 2 quickstart_world)
    as (w1 & w2 & G2 & Hsave & Hload & Hgraph & _ & Hsize).
  - reflexivity.
  - reflexivity.
  - reflexivity.
  - reflexivity.
  - lia.
  - by exists w1, w2, G2.
Defined.




(** X13. Different literals can come back as one: a plain literal and
    the plain literal whose lexical value has one more single quote in
    front are different objects, yet their triples decode to the same
    triple, so a reloaded graph can have fewer triples than the saved
    one. *)
Theorem literals_collapse (s p : Term) (lex : string) :
  (s, p, Literal lex None None) ≠ (s, p, Literal (String squote lex) None None)
  ∧ decode_row (Encode (s, p, Literal lex None None))
    = decode_row (Encode (s, p, Literal (String squote lex) None None)).
Proof.
  split.
  - intros [= Heq]. apply (f_equal String.length) in Heq. simpl in Heq. lia.
  - unfold decode_row, Encode. cbn [subject predicate object].
    by rewrite !parse_object_plain.
Qed.

(** ** The graph methods: [add], [remove], [triples], [summary] *)
Section GraphMethods.

Lemma get_graph_ok (self gr : positive) (G : gset Triple) (w : World) :
  attr_g w !! self = Some gr →
  graphs w !! gr = Some G →
  get_graph self w = Ok (gr, G).
Proof. intros Hself Hgr. unfold get_graph. by rewrite Hself, Hgr. Qed.

Lemma graph_of_ok (self gr : positive) (G : gset Triple) (w : World) :
  attr_g w !! self = Some gr →
  graphs w !! gr = Some G →
  graph_of self w = Some G.
Proof. intros Hself Hgr. unfold graph_of. rewrite Hself. simpl. done. Qed.

Lemma len_ok (self gr : positive) (G : gset Triple) (w : World) :
  attr_g w !! self = Some gr →
  graphs w !! gr = Some G →
  __len__ self w = Ok (size G).
Proof.
  intros Hself Hgr. unfold __len__.
  by rewrite (get_graph_ok self gr G w Hself Hgr).
Qed.

Lemma add_ok (self gr : positive) (G : gset Triple) (t : Triple) (w : World) :
  attr_g w !! self = Some gr →
  graphs w !! gr = Some G →
  add self t w
  = Ok ({| files := files w;
           attr_g := attr_g w;
           graphs := <[gr := {[t]} ∪ G]> (graphs w) |}, self).
Proof.
  intros Hself Hgr. unfold add.
  by rewrite (graph_add_ok self gr G t w Hself Hgr).
Qed.

Lemma remove_ok (self gr : positive) (G : gset Triple) (pat : Pattern)
    (w : World) :
  attr_g w !! self = Some gr →
  graphs w !! gr = Some G →
  remove self pat w
  = Ok ({| files := files w;
           attr_g := attr_g w;
           graphs := <[gr := filter (λ t, ¬ matches pat t) G]> (graphs w) |},
        self).
Proof.
  intros Hself Hgr. unfold remove.
  by rewrite (get_graph_ok self gr G w Hself Hgr).
Qed.

Lemma graph_triples_ok (self gr : positive) (G : gset Triple) (pat : Pattern)
    (w : World) :
  attr_g w !! self = Some gr →
  graphs w !! gr = Some G →
  graph_triples self pat w = Ok (elements (filter (λ t, matches pat t) G)).
Proof.
  intros Hself Hgr. unfold graph_triples.
  by rewrite (get_graph_ok self gr G w Hself Hgr).
Qed.

Lemma size_add (G : gset Triple) (t : Triple) :
  size ({[t]} ∪ G) = if decide (t ∈ G) then size G else S (size G).
Proof.
  destruct (decide (t ∈ G)) as [Hin | Hout].
  - f_equal. apply set_eq. intros x.
    rewrite elem_of_union, elem_of_singleton. intuition congruence.
  - rewrite size_union, size_singleton; [done |].
    intros x Hx%elem_of_singleton ?. by subst.
Qed.

Lemma matches_exact (s p o : Term) (t : Triple) :
  matches (Some s, Some p, Some o) t = true ↔ t = (s, p, o).
Proof.
  destruct t as [[s' p'] o']. unfold matches, term_matches.
  rewrite !andb_true_iff, !bool_decide_eq_true. split.
  - by intros [[-> ->] ->].
  - by intros [= -> -> ->].
Qed.

Lemma matches_any (t : Triple) : matches (None, None, None) t = true.
Proof. by destruct t as [[s p] o]. Qed.

Lemma not_matches (pat : Pattern) (t : Triple) :
  ¬ matches pat t ↔ matches pat t = false.
Proof. destruct (matches pat t); simpl; intuition congruence. Qed.

End GraphMethods.

(** X14. [add] returns [self] and puts the triple into the graph of
    [self] only.  The length grows by one when the triple is new and
    stays when it is already there, and adding it a second time changes
    nothing. *)
Theorem add_effect (self gr : positive) (G : gset Triple) (t : Triple)
    (w : World) :
  attr_g w !! self = Some gr →
  graphs w !! gr = Some G →
  ∃ w', add self t w = Ok (w', self)
        ∧ graph_of self w' = Some ({[t]} ∪ G)
        ∧ __len__ self w' = Ok (if decide (t ∈ G) then size G else S (size G))
        ∧ add self t w' = Ok (w', self)
        ∧ files w' = files w
        ∧ (∀ gr', gr' ≠ gr → graphs w' !! gr' = graphs w !! gr').
Proof.
  intros Hself Hgr.
  set (w' := {| files := files w;
                attr_g := attr_g w;
                graphs := <[gr := {[t]} ∪ G]> (graphs w) |}).
  assert (Hgr' : graphs w' !! gr = Some ({[t]} ∪ G)) by apply lookup_insert_eq.
  exists w'. split_and!.
  - by apply add_ok.
  - by apply (graph_of_ok self gr).
  - rewrite (len_ok self gr ({[t]} ∪ G) w' Hself Hgr'). by rewrite size_add.
  - rewrite (add_ok self gr ({[t]} ∪ G) t w' Hself Hgr'). do 2 f_equal.
    unfold w'. cbn [files attr_g graphs]. f_equal.
    rewrite insert_insert_eq. f_equal.
    rewrite (assoc_L (∪)). by rewrite (idemp_L (∪)).
  - done.
  - intros gr' Hne. by apply lookup_insert_ne.
Qed.

Lemma add_effect_witness :
  ∃ w', add 2%positive (ex_John, ex_knows, ex_Jane) quickstart_world
        = Ok (w', 2%positive)
        ∧ __len__ 2%positive w' = Ok 1%nat.
Proof.
  destruct (add_effect 2%positive 2%positive ∅ (ex_John, ex_knows, ex_Jane)
              quickstart_world) as (w' & Hadd & _ & Hlen & _);
    [reflexivity | reflexivity |].
  exists w'. split; [exact Hadd | exact Hlen].
Defined.

(** X15. [remove] returns [self] and deletes from the graph of
    [self] exactly the triples that match the pattern: the others stay,
    the pattern of three [None] empties the graph, and a second
    [remove] of the same pattern changes nothing. *)
Theorem remove_effect (self gr : positive) (G : gset Triple) (pat : Pattern)
    (w : World) :
  attr_g w !! self = Some gr →
  graphs w !! gr = Some G →
  ∃ w' G',
    remove self pat w = Ok (w', self)
    ∧ graph_of self w' = Some G'
    ∧ (∀ t, t ∈ G' ↔ t ∈ G ∧ matches pat t = false)
    ∧ (pat = (None, None, None) → G' = ∅)
    ∧ remove self pat w' = Ok (w', self)
    ∧ (∀ gr', gr' ≠ gr → graphs w' !! gr' = graphs w !! gr').
Proof.
  intros Hself Hgr.
  set (G' := filter (λ t, ¬ matches pat t) G).
  set (w' := {| files := files w;
                attr_g := attr_g w;
                graphs := <[gr := G']> (graphs w) |}).
  assert (Hgr' : graphs w' !! gr = Some G') by apply lookup_insert_eq.
  assert (Hmem : ∀ t, t ∈ G' ↔ t ∈ G ∧ matches pat t = false).
  { intros t. unfold G'. rewrite elem_of_filter, not_matches. tauto. }
  exists w', G'. split_and!.
  - by apply remove_ok.
  - by apply (graph_of_ok self gr).
  - done.
  - intros ->. apply set_eq. intros t. rewrite Hmem, matches_any.
    rewrite elem_of_empty. intuition congruence.
  - rewrite (remove_ok self gr G' pat w' Hself Hgr'). do 2 f_equal.
    unfold w'. cbn [files attr_g graphs]. f_equal.
    rewrite insert_insert_eq. f_equal.
    apply set_eq. intros t. rewrite elem_of_filter, not_matches, Hmem. tauto.
  - intros gr' Hne. by apply lookup_insert_ne.
Qed.

Lemma remove_effect_witness :
  ∃ w' G',
    remove 1%positive (Some ex_John, None, None) quickstart_world
    = Ok (w', 1%positive)
    ∧ graph_of 1%positive w' = Some G'
    ∧ (ex_John, ex_knows, ex_Jane) ∉ G'.
Proof.
  destruct (remove_effect 1%positive 1%positive (list_to_set john_triples)
              (Some ex_John, None, None) quickstart_world)
    as (w' & G' & Hrem & Hgraph & Hmem & _); [reflexivity | reflexivity |].
  exists w', G'. split_and!; [exact Hrem | exact Hgraph |].
  rewrite Hmem. by intros [_ ?].
Defined.

(** X16. Adding a new triple and then removing exactly that triple
    restores the world: [kg.add(t).remove(t)] leaves nothing behind. *)
Theorem add_then_remove (self gr : positive) (G : gset Triple) (s p o : Term)
    (w : World) :
  attr_g w !! self = Some gr →
  graphs w !! gr = Some G →
  (s, p, o) ∉ G →
  ∃ w1, add self (s, p, o) w = Ok (w1, self)
        ∧ remove self (Some s, Some p, Some o) w1 = Ok (w, self).
Proof.
  intros Hself Hgr Hnew. eexists. split; [by apply add_ok |].
  erewrite remove_ok; [| exact Hself | apply lookup_insert_eq].
  do 2 f_equal. destruct w as [fs ag gs]. cbn [files attr_g graphs] in *.
  f_equal. rewrite insert_insert_eq. apply insert_id. rewrite Hgr. f_equal.
  apply set_eq. intros t.
  rewrite elem_of_filter, not_matches, elem_of_union, elem_of_singleton.
  destruct (matches (Some s, Some p, Some o) t) eqn:Hm.
  - apply matches_exact in Hm as ->. intuition congruence.
  - assert (t ≠ (s, p, o)) by (intros Heq%matches_exact; congruence).
    intuition congruence.
Qed.

Lemma add_then_remove_witness :
  ∃ w1, add 2%positive (ex_John, ex_knows, ex_Jane) quickstart_world
        = Ok (w1, 2%positive)
        ∧ remove 2%positive (Some ex_John, Some ex_knows, Some ex_Jane) w1
          = Ok (quickstart_world, 2%positive).
Proof.
  apply (add_then_remove 2%positive 2%positive ∅ ex_John ex_knows ex_Jane
           quickstart_world); [reflexivity | reflexivity |].
  apply not_elem_of_empty.
Defined.

(** X17. [triples] and [__getitem__] list, without repetition,
    exactly the triples of the graph that match the pattern, and they
    agree on every pattern.  Without a pattern [triples] lists the
    whole graph, and its length is [len(kg)]. *)
Theorem triples_lists_matches (self gr : positive) (G : gset Triple)
    (pat : Pattern) (w : World) :
  attr_g w !! self = Some gr →
  graphs w !! gr = Some G →
  (∃ l, triples self (Some pat) w = Ok l
        ∧ __getitem__ self pat w = Ok l
        ∧ NoDup l
        ∧ (∀ t, t ∈ l ↔ t ∈ G ∧ matches pat t = true))
  ∧ (∃ l, triples self None w = Ok l
          ∧ NoDup l
          ∧ (∀ t, t ∈ l ↔ t ∈ G)
          ∧ __len__ self w = Ok (length l)).
Proof.
  intros Hself Hgr. split.
  - exists (elements (filter (λ t, matches pat t) G)). split_and!.
    + exact (graph_triples_ok self gr G pat w Hself Hgr).
    + exact (graph_triples_ok self gr G pat w Hself Hgr).
    + apply NoDup_elements.
    + intros t. rewrite elem_of_elements, elem_of_filter.
      rewrite Is_true_true. tauto.
  - assert (Hall : filter (λ t, matches (None, None, None) t) G = G).
    { apply set_eq. intros t. rewrite elem_of_filter, matches_any. simpl. tauto. }
    exists (elements G). split_and!.
    + unfold triples. cbn [default].
      rewrite (graph_triples_ok self gr G _ w Hself Hgr). by rewrite Hall.
    + apply NoDup_elements.
    + intros t. apply elem_of_elements.
    + by apply (len_ok self gr).
Qed.

Lemma triples_lists_matches_witness :
  ∃ l, triples 1%positive (Some (None, Some ex_name, None)) quickstart_world = Ok l
       ∧ ∀ t, t ∈ l ↔ t ∈ (list_to_set john_triples : gset Triple)
                       ∧ matches (None, Some ex_name, None) t = true.
Proof.
  destruct (triples_lists_matches 1%positive 1%positive (list_to_set john_triples)
              (None, Some ex_name, None) quickstart_world)
    as [(l & Hl & _ & _ & Hmem) _]; [reflexivity | reflexivity |].
  exists l. split; [exact Hl | exact Hmem].
Defined.



(** ** New objects *)
Section Init.

Lemma init_fresh_self (g : option positive) (w : World) :
  attr_g w !! (__init__ g w).2 = None.
Proof.
  unfold __init__. cbn [snd]. apply not_elem_of_dom, is_fresh.
Qed.

Lemma init_fresh_graph (w : World) :
  graphs w !! fresh (dom (graphs w)) = None.
Proof. apply not_elem_of_dom, is_fresh. Qed.

End Init.

(** X19. [KnowledgeGraph()] makes a new object with a new, empty
    graph: its reference names no earlier object, its length is 0,
    every earlier [KnowledgeGraph] keeps its graph, and a triple added
    to the new object reaches no earlier one. *)
Theorem init_isolated (w : World) (t : Triple) :
  let '(w1, self) := __init__ None w in
  attr_g w !! self = None
  ∧ graph_of self w1 = Some ∅
  ∧ __len__ self w1 = Ok 0%nat
  ∧ files w1 = files w
  ∧ (∀ kg G, graph_of kg w = Some G → graph_of kg w1 = Some G)
  ∧ ∃ w2, add self t w1 = Ok (w2, self)
          ∧ graph_of self w2 = Some {[t]}
          ∧ (∀ kg G, graph_of kg w = Some G → graph_of kg w2 = Some G).
Proof.
  pose proof (init_fresh_self None w) as Hself.
  pose proof (init_fresh_graph w) as Hnew.
  unfold __init__ in *. cbn [snd default] in *.
  set (self := fresh (dom (attr_g w))) in *.
  set (new := fresh (dom (graphs w))) in *.
  set (w1 := {| files := files w;
                attr_g := <[self := new]> (attr_g w);
                graphs := <[new := ∅]> (graphs w) |}).
  assert (Hself1 : attr_g w1 !! self = Some new) by apply lookup_insert_eq.
  assert (Hnew1 : graphs w1 !! new = Some ∅) by apply lookup_insert_eq.
  assert (Hframe : ∀ kg G,
             graph_of kg w = Some G →
             ∃ gr, attr_g w !! kg = Some gr ∧ graphs w !! gr = Some G
                   ∧ kg ≠ self ∧ gr ≠ new).
  { intros kg G Hkg. unfold graph_of in Hkg.
    destruct (attr_g w !! kg) as [gr|] eqn:Hattr; [| done]. simpl in Hkg.
    exists gr. split_and!; try done; intros ->; congruence. }
  split_and!.
  - done.
  - by apply (graph_of_ok self new).
  - rewrite (len_ok self new ∅ w1 Hself1 Hnew1). by rewrite size_empty.
  - done.
  - intros kg G Hkg.
    destruct (Hframe kg G Hkg) as (gr & Hattr & Hgr & Hne & Hne').
    apply (graph_of_ok kg gr); cbn [attr_g graphs w1].
    + by rewrite lookup_insert_ne.
    + by rewrite lookup_insert_ne.
  - eexists. split_and!.
    + by apply (add_ok self new ∅).
    + apply (graph_of_ok self new); cbn [attr_g graphs]; [done |].
      rewrite lookup_insert_eq. by rewrite (right_id_L ∅ (∪)).
    + intros kg G Hkg.
      destruct (Hframe kg G Hkg) as (gr & Hattr & Hgr & Hne & Hne').
      apply (graph_of_ok kg gr); cbn [attr_g graphs w1].
      * by rewrite lookup_insert_ne.
      * by rewrite !lookup_insert_ne.
Qed.



(** ** Further properties of [save_parquet] *)

(** X21. [save_parquet] writes one row for every triple of the graph,
    [len(kg)] rows in all, each the encoding of a triple of the graph.
    It replaces the file under [path] only, changes no graph and no
    object, and saving again writes the same file. *)
Theorem save_parquet_effect (self gr : positive) (G : gset Triple)
    (path : string) (w : World) :
  attr_g w !! self = Some gr →
  graphs w !! gr = Some G →
  ∃ w1 rows,
    save_parquet self path w = Ok w1
    ∧ files w1 !! path = Some rows
    ∧ __len__ self w = Ok (length rows)
    ∧ (∀ row, row ∈ rows ↔ ∃ t, t ∈ G ∧ row = Encode t)
    ∧ graphs w1 = graphs w
    ∧ attr_g w1 = attr_g w
    ∧ (∀ path', path' ≠ path → files w1 !! path' = files w !! path')
    ∧ save_parquet self path w1 = Ok w1.
Proof.
  intros Hself Hgr. eexists _, (Encode <$> elements G). split_and!.
  - by apply (save_parquet_rows self gr G).
  - apply lookup_insert_eq.
  - rewrite (len_ok self gr G w Hself Hgr). by rewrite length_fmap.
  - intros row. rewrite list_elem_of_fmap. split.
    + intros (t & -> & Ht%elem_of_elements). by exists t.
    + intros (t & Ht & ->). exists t. by rewrite elem_of_elements.
  - done.
  - done.
  - intros path' Hne. cbn [files]. by rewrite lookup_insert_ne.
  - rewrite (save_parquet_rows self gr G); [| done | done].
    cbn [files attr_g graphs]. by rewrite insert_insert_eq.
Qed.

Lemma save_parquet_effect_witness :
  ∃ w1 rows,
    save_parquet 1%positive "example.parquet" quickstart_world = Ok w1
    ∧ files w1 !! "example.parquet" = Some rows
    ∧ __len__ 1%positive quickstart_world = Ok (length rows).
Proof.
  destruct (save_parquet_effect 1%positive 1%positive (list_to_set john_triples)
              "example.parquet" quickstart_world)
    as (w1 & rows & Hsave & Hfile & Hlen & _); [reflexivity | reflexivity |].
  exists w1, rows. split_and!; [exact Hsave | exact Hfile | exact Hlen].
Defined.

(** X22. Loading a saved file back into the graph it was saved from
    removes nothing; it can add the changed copies of the triples that
    do not survive the round trip, so the graph at most doubles. *)
Theorem reload_into_same_graph (kg gr : positive) (G : gset Triple)
    (path : string) (k : Z) (w : World) :
  attr_g w !! kg = Some gr →
  graphs w !! gr = Some G →
  1 ≤ k →
  ∃ w1 w2 G2,
    save_parquet kg path w = Ok w1
    ∧ load_parquet kg path k w1 = Ok (w2, kg)
    ∧ graph_of kg w2 = Some G2
    ∧ (∀ t, t ∈ G2 ↔ t ∈ G ∨ ∃ t0, t0 ∈ G ∧ t = decode_row (Encode t0))
    ∧ (size G ≤ size G2 ≤ 2 * size G)%nat.
Proof.
  intros Hkg Hgr Hk.
  destruct (reload_effect kg kg gr gr G G path k w Hkg Hgr Hkg Hgr Hk)
    as (w1 & w2 & Hsave & Hload & Hgraph).
  set (D := list_to_set (C := gset Triple) (decode_row <$> (Encode <$> elements G)))
    in *.
  exists w1, w2, (G ∪ D). split_and!; [done | done | done | | |].
  - intros t. rewrite elem_of_union. unfold D.
    rewrite elem_of_list_to_set, <- list_fmap_compose, list_elem_of_fmap.
    split; (intros [? | (t0 & H1 & H2)]; [by left | right; exists t0]).
    + split; [by apply elem_of_elements | done].
    + split; [done | by apply elem_of_elements].
  - apply subseteq_size. intros t Ht. apply elem_of_union. by left.
  - rewrite size_union_alt.
    assert (size (D ∖ G) ≤ size D)%nat as H1.
    { apply subseteq_size. intros t Ht. by apply elem_of_difference in Ht as [Ht _]. }
    assert (size D ≤ size G)%nat as H2.
    { unfold D. etrans; [apply size_list_to_set_le |]. by rewrite !length_fmap. }
    lia.
Qed.

Lemma reload_into_same_graph_witness :
  ∃ w1 w2 G2,
    save_parquet 1%positive "example.parquet" quickstart_world = Ok w1
    ∧ load_parquet 1%positive "example.parquet" 2 w1 = Ok (w2, 1%positive)
    ∧ graph_of 1%positive w2 = Some G2
    ∧ (size G2 ≤ 2 * size (list_to_set (C := gset Triple) john_triples))%nat.
Proof.
  destruct (reload_into_same_graph 1%positive 1%positive (list_to_set john_triples)
              "example.parquet" 2 quickstart_world)
    as (w1 & w2 & G2 & Hsave & Hload & Hgraph & _ & _ & Hsize);
    [reflexivity | reflexivity | lia |].
  by exists w1, w2, G2.
Defined.



Lemma init_isolated_witness :
  let '(w1, self) := __init__ None quickstart_world in
  graph_of self w1 = Some ∅
  ∧ graph_of 1%positive w1 = Some (list_to_set john_triples).
Proof.
  pose proof (init_isolated quickstart_world (ex_John, ex_knows, ex_Jane)) as H.
  destruct (__init__ None quickstart_world) as [w1 self].
  destruct H as (_ & Hnew & _ & _ & Hold & _).
  split; [exact Hnew | apply Hold; reflexivity].
Defined.
